(** * WebSnake: the tick-driven game state of docs/game.js

    A shallow embedding of the script's state variables and of the
    functions [randomEmptyPosition], [startGame], [handleKeyDown], [tick],
    [endGame], [updateScoreboard] and [playBeep], with the properties the
    specification states about them. *)

From Stdlib Require Import ZArith List Bool Lia String Ascii.
From Stdlib Require Import SpecFloat.
Import ListNotations.
Local Open Scope Z_scope.

(** ** JavaScript numbers

    Direction components and the score only ever hold small integers, on
    which the arithmetic of JavaScript numbers is exact: they are values of
    [Z].  A grid coordinate holds such an integer or, after a step in a
    direction that is no array, [NaN].  The one place where a fractional
    number occurs is [Math.floor(Math.random() * BOARD_WIDTH)]; there the
    number is an IEEE-754 binary64 value ([spec_float] at precision 53) and
    the product is the correctly rounded one, [SFmul]. *)

Module Double.

Definition prec : Z := 53.
Definition emax : Z := 1024.

Definition mul : spec_float -> spec_float -> spec_float := SFmul prec emax.

(** The binary64 value of an integer literal. *)
Definition of_Z (z : Z) : spec_float := binary_normalize prec emax z 0 false.

Definition zero : spec_float := S754_zero false.
Definition one : spec_float := of_Z 1.

(** [Math.floor], for the finite arguments it gets here, as the integer it
    returns.  NaN and the infinities are their own floor in JavaScript and have
    no integer value; [0] stands for them, and [random_index_range] below shows
    that the product the sampling code takes the floor of is always finite. *)
Definition floor (x : spec_float) : Z :=
  match x with
  | S754_finite s m e => Z.shiftl (cond_Zopp s (Zpos m)) e
  | _ => 0
  end.

Definition is_finite (x : spec_float) : bool :=
  match x with
  | S754_zero _ | S754_finite _ _ _ => true
  | _ => false
  end.

(** What ECMAScript promises of [Math.random()]: a number [r] with
    [0 <= r < 1]. *)
Definition in_unit_interval (r : spec_float) : bool :=
  valid_binary prec emax r && SFleb zero r && SFltb r one.

Record random : Type := mkRandom {
  value : spec_float;
  value_ok : in_unit_interval value = true
}.

(** [Math.floor(Math.random() * n)] for the value [r] that [Math.random()]
    returned. *)
Definition random_index (r : random) (n : Z) : Z :=
  floor (mul (value r) (of_Z n)).

(** [k] steps of the right shift [shr_1] that [SFmul] rounds with. *)
Fixpoint shr_n (k : nat) (mrs : shr_record) : shr_record :=
  match k with
  | O => mrs
  | S k' => shr_n k' (shr_1 mrs)
  end.

End Double.


(** ** Configuration constants *)

Definition BOARD_WIDTH : Z := 40.
Definition BOARD_HEIGHT : Z := 30.
Definition TICK_INTERVAL : Z := 100.

(** ** State *)

(** A number as the script computes with it on coordinates: an integer, or
    [NaN]. *)
Inductive Num : Type :=
| Int (z : Z)
| NaN.
Coercion Int : Z >-> Num.

(** A two-element array of numbers [[x, y]]: a segment of the snake, or the
    food. *)
Definition Cell : Type := (Num * Num)%type.
Abbreviation xy := (@pair Num Num).

(** What [Object.prototype] lends to every object literal under a name in
    lower case: [constructor], the function [Object], and [__proto__], the
    prototype itself.  Neither has a property [0] or [1]. *)
Inductive Inherited : Type :=
| Object_constructor
| Object_prototype.

(** What the lookup [map[key]] of [handleKeyDown] can find, and so what
    [pendingDirection] and [direction] can hold: one of the arrays [[dx, dy]]
    of the object literal, or a member the literal inherits. *)
Inductive Value : Type :=
| Vec (dx dy : Z)
| Member (m : Inherited).

(** What [v[0]] and [v[1]] yield: a number of the array, or [undefined]. *)
Inductive Slot : Type :=
| Has (z : Z)
| Undefined.

Definition at_index (i : nat) (v : Value) : Slot :=
  match v with
  | Vec dx dy => Has match i with O => dx | S _ => dy end
  | Member _ => Undefined
  end.

(** The conversion to a number that [+] and unary [-] apply to an operand
    that is not a string: [undefined] becomes [NaN]. *)
Definition to_number (s : Slot) : Num :=
  match s with
  | Has z => Int z
  | Undefined => NaN
  end.

(** [a + b], [a % b] and [-a] on numbers. *)
Definition add (a b : Num) : Num :=
  match a, b with
  | Int x, Int y => Int (x + y)
  | _, _ => NaN
  end.

Definition remainder (a b : Num) : Num :=
  match a, b with
  | Int x, Int y => if y =? 0 then NaN else Int (Z.rem x y)
  | _, _ => NaN
  end.

Definition negate (a : Num) : Num :=
  match a with
  | Int x => Int (- x)
  | NaN => NaN
  end.

(** [a === b] between two numbers: [NaN] equals nothing, not even itself. *)
Definition strict_equal (a b : Num) : bool :=
  match a, b with
  | Int x, Int y => x =? y
  | _, _ => false
  end.

(** [s === b] where [s] was read from an array or an inherited member and [b]
    is a number: [undefined] is no number. *)
Definition slot_equal (s : Slot) (b : Num) : bool :=
  match s with
  | Has z => strict_equal (Int z) b
  | Undefined => false
  end.

(** The calls [playBeep] makes into the Web Audio API, in program order. *)
Inductive AudioCall : Type :=
| NewAudioContext
| CreateOscillator
| CreateGain
| ConnectOscillator
| ConnectGain
| SetType
| SetFrequency
| SetGainValue
| StartOscillator
| StopOscillator.

(** The script's [let] variables ("Spielstatusvariablen").  [intervalId] is
    [None] for [null]; [audioCtx] is [false] while the variable is undefined
    and [true] once it holds an [AudioContext]. *)
Record Vars : Type := mkVars {
  playerName : string;
  snake : list Cell;
  direction : Value;
  pendingDirection : option Value;
  food : option Cell;
  running : bool;
  score : Z;
  intervalId : option nat;
  audioCtx : bool
}.

(** What the script reads from and writes to the page and the browser. *)
Record Host : Type := mkHost {
  (** [nameInput.value] *)
  nameInput_value : string;
  (** whether the class list of each element holds ['hidden'] *)
  startScreen_hidden : bool;
  gameContainer_hidden : bool;
  (** the player name and score last written into [scoreboard.innerHTML] *)
  scoreboard : option (string * Z);
  (** the name and score of each [alert], latest first *)
  alerts : list (string * Z);
  (** the interval timers that are running, and the next id [setInterval] gives *)
  timers : list nat;
  next_timer : nat;
  (** calls of [requestAnimationFrame(draw)] not yet served *)
  frames : nat;
  (** the values the coming calls of [Math.random()] return *)
  randoms : list Double.random;
  (** which Web Audio calls throw, and the calls that went through, latest first *)
  audio_fault : AudioCall -> bool;
  audio_log : list AudioCall
}.

Record World : Type := mkWorld { vars : Vars; host : Host }.

Definition set_playerName (v : string) (g : Vars) : Vars :=
  mkVars v (snake g) (direction g) (pendingDirection g) (food g) (running g) (score g)
    (intervalId g) (audioCtx g).
Definition set_snake (v : list Cell) (g : Vars) : Vars :=
  mkVars (playerName g) v (direction g) (pendingDirection g) (food g) (running g)
    (score g) (intervalId g) (audioCtx g).
Definition set_direction (v : Value) (g : Vars) : Vars :=
  mkVars (playerName g) (snake g) v (pendingDirection g) (food g) (running g) (score g)
    (intervalId g) (audioCtx g).
Definition set_pendingDirection (v : option Value) (g : Vars) : Vars :=
  mkVars (playerName g) (snake g) (direction g) v (food g) (running g) (score g)
    (intervalId g) (audioCtx g).
Definition set_food (v : option Cell) (g : Vars) : Vars :=
  mkVars (playerName g) (snake g) (direction g) (pendingDirection g) v (running g)
    (score g) (intervalId g) (audioCtx g).
Definition set_running (v : bool) (g : Vars) : Vars :=
  mkVars (playerName g) (snake g) (direction g) (pendingDirection g) (food g) v
    (score g) (intervalId g) (audioCtx g).
Definition set_score (v : Z) (g : Vars) : Vars :=
  mkVars (playerName g) (snake g) (direction g) (pendingDirection g) (food g)
    (running g) v (intervalId g) (audioCtx g).
Definition set_intervalId (v : option nat) (g : Vars) : Vars :=
  mkVars (playerName g) (snake g) (direction g) (pendingDirection g) (food g)
    (running g) (score g) v (audioCtx g).
Definition set_audioCtx (v : bool) (g : Vars) : Vars :=
  mkVars (playerName g) (snake g) (direction g) (pendingDirection g) (food g)
    (running g) (score g) (intervalId g) v.

Definition set_startScreen_hidden (v : bool) (h : Host) : Host :=
  mkHost (nameInput_value h) v (gameContainer_hidden h) (scoreboard h) (alerts h)
    (timers h) (next_timer h) (frames h) (randoms h) (audio_fault h) (audio_log h).
Definition set_gameContainer_hidden (v : bool) (h : Host) : Host :=
  mkHost (nameInput_value h) (startScreen_hidden h) v (scoreboard h) (alerts h)
    (timers h) (next_timer h) (frames h) (randoms h) (audio_fault h) (audio_log h).
Definition set_scoreboard (v : option (string * Z)) (h : Host) : Host :=
  mkHost (nameInput_value h) (startScreen_hidden h) (gameContainer_hidden h) v
    (alerts h) (timers h) (next_timer h) (frames h) (randoms h) (audio_fault h)
    (audio_log h).
Definition set_alerts (v : list (string * Z)) (h : Host) : Host :=
  mkHost (nameInput_value h) (startScreen_hidden h) (gameContainer_hidden h)
    (scoreboard h) v (timers h) (next_timer h) (frames h) (randoms h) (audio_fault h)
    (audio_log h).
Definition set_timers (v : list nat) (h : Host) : Host :=
  mkHost (nameInput_value h) (startScreen_hidden h) (gameContainer_hidden h)
    (scoreboard h) (alerts h) v (next_timer h) (frames h) (randoms h) (audio_fault h)
    (audio_log h).
Definition set_next_timer (v : nat) (h : Host) : Host :=
  mkHost (nameInput_value h) (startScreen_hidden h) (gameContainer_hidden h)
    (scoreboard h) (alerts h) (timers h) v (frames h) (randoms h) (audio_fault h)
    (audio_log h).
Definition set_frames (v : nat) (h : Host) : Host :=
  mkHost (nameInput_value h) (startScreen_hidden h) (gameContainer_hidden h)
    (scoreboard h) (alerts h) (timers h) (next_timer h) v (randoms h) (audio_fault h)
    (audio_log h).
Definition set_randoms (v : list Double.random) (h : Host) : Host :=
  mkHost (nameInput_value h) (startScreen_hidden h) (gameContainer_hidden h)
    (scoreboard h) (alerts h) (timers h) (next_timer h) (frames h) v (audio_fault h)
    (audio_log h).
Definition set_audio_log (v : list AudioCall) (h : Host) : Host :=
  mkHost (nameInput_value h) (startScreen_hidden h) (gameContainer_hidden h)
    (scoreboard h) (alerts h) (timers h) (next_timer h) (frames h) (randoms h)
    (audio_fault h) v.

Definition on_vars (f : Vars -> Vars) (w : World) : World := mkWorld (f (vars w)) (host w).
Definition on_host (f : Host -> Host) (w : World) : World := mkWorld (vars w) (f (host w)).

(** The values of the [let] declarations when the script is loaded. *)
Definition initial_vars : Vars :=
  mkVars EmptyString [] (Vec 1 0) None None false 0 None false.

(** ** Running a function of the script

    A call either returns, or ends in an exception nobody caught, or is still
    inside [while (true)] when the supplied values of [Math.random()] are used
    up.  Each outcome carries the state the call has produced so far. *)

Inductive Error : Type :=
| TypeError
| AudioError (c : AudioCall).

Inductive Outcome (A : Type) : Type :=
| Returns (a : A) (w : World)
| Throws (err : Error) (w : World)
| Unfinished (w : World).
Arguments Returns {A} a w.
Arguments Throws {A} err w.
Arguments Unfinished {A} w.

Definition JS (A : Type) : Type := World -> Outcome A.

Definition ret {A : Type} (a : A) : JS A := fun w => Returns a w.

Definition bind {A B : Type} (m : JS A) (k : A -> JS B) : JS B :=
  fun w =>
    match m w with
    | Returns a w' => k a w'
    | Throws err w' => Throws err w'
    | Unfinished w' => Unfinished w'
    end.

Definition throw {A : Type} (err : Error) : JS A := fun w => Throws err w.

(** [try { body } catch (err) { handler }] *)
Definition try_catch {A : Type} (body : JS A) (handler : Error -> JS A) : JS A :=
  fun w =>
    match body w with
    | Throws err w' => handler err w'
    | o => o
    end.

Definition read {A : Type} (f : Vars -> A) : JS A := fun w => Returns (f (vars w)) w.
Definition assign (f : Vars -> Vars) : JS unit := fun w => Returns tt (on_vars f w).
Definition read_host {A : Type} (f : Host -> A) : JS A := fun w => Returns (f (host w)) w.
Definition effect (f : Host -> Host) : JS unit := fun w => Returns tt (on_host f w).

Declare Scope js_scope.
Delimit Scope js_scope with js.
Notation "x <- m ;; k" := (bind m (fun x => k))
  (at level 61, m at next level, right associativity) : js_scope.
Notation "m ;; k" := (bind m (fun _ => k))
  (at level 61, right associativity) : js_scope.
Local Open Scope js_scope.

Definition outcome_world {A : Type} (o : Outcome A) : World :=
  match o with
  | Returns _ w | Throws _ w | Unfinished w => w
  end.

Definition outcome_map {A : Type} (f : World -> World) (o : Outcome A) : Outcome A :=
  match o with
  | Returns a w => Returns a (f w)
  | Throws err w => Throws err (f w)
  | Unfinished w => Unfinished (f w)
  end.

(** ** Browser functions the script calls *)

(** [Math.random()]: the next of the supplied values. *)
Definition Math_random : JS Double.random :=
  fun w =>
    match randoms (host w) with
    | r :: rs => Returns r (on_host (set_randoms rs) w)
    | [] => Unfinished w
    end.

(** [setInterval(tick, delay)]: starts a timer and returns its id.  Time is
    not part of the state, so the delay is not kept. *)
Definition setInterval (delay : Z) : JS nat :=
  id <- read_host next_timer ;;
  effect (fun h => set_next_timer (S id) (set_timers (id :: timers h) h)) ;;
  ret id.

(** [clearInterval(id)]: stops that timer; nothing happens for [null] or for
    an id that is not running. *)
Definition stop_timer (id : option nat) (h : Host) : Host :=
  set_timers
    match id with
    | Some i => List.remove Nat.eq_dec i (timers h)
    | None => timers h
    end h.

Definition clearInterval (id : option nat) : JS unit := effect (stop_timer id).

Definition requestAnimationFrame : JS unit :=
  effect (fun h => set_frames (S (frames h)) h).

Definition alert (name : string) (points : Z) : JS unit :=
  effect (fun h => set_alerts ((name, points) :: alerts h) h).

(** One call into the Web Audio API. *)
Definition audio (c : AudioCall) : JS unit :=
  fun w =>
    if audio_fault (host w) c
    then Throws (AudioError c) w
    else Returns tt (on_host (fun h => set_audio_log (c :: audio_log h) h) w).

(** ** Strings *)

(** [String.prototype.toLowerCase] on the letters A-Z; the key names the
    script compares with are ASCII. *)
Definition lower_ascii (c : ascii) : ascii :=
  let n := nat_of_ascii c in
  if ((65 <=? n) && (n <=? 90))%nat then ascii_of_nat (n + 32) else c.

Fixpoint toLowerCase (s : string) : string :=
  match s with
  | EmptyString => EmptyString
  | String c s' => String (lower_ascii c) (toLowerCase s')
  end.

(** [String.prototype.trim] for the ASCII white space and line terminators. *)
Definition is_space (c : ascii) : bool :=
  let n := nat_of_ascii c in
  ((n =? 32) || ((9 <=? n) && (n <=? 13)))%nat.

Fixpoint trimStart (s : string) : string :=
  match s with
  | EmptyString => EmptyString
  | String c s' => if is_space c then trimStart s' else s
  end.

Fixpoint trimEnd (s : string) : string :=
  match s with
  | EmptyString => EmptyString
  | String c s' =>
      match trimEnd s' with
      | EmptyString => if is_space c then EmptyString else String c EmptyString
      | t => String c t
      end
  end.

Definition trim (s : string) : string := trimEnd (trimStart s).

(** ** The script's functions *)

(** The test [seg[0] === x && seg[1] === y] of the two loops over the snake. *)
Definition same_cell (x y : Num) (seg : Cell) : bool :=
  strict_equal (fst seg) x && strict_equal (snd seg) y.

(** Whether some segment of [s] lies on [(x, y)]. *)
Definition occupies (s : list Cell) (x y : Num) : bool :=
  existsb (same_cell x y) s.

(** [randomEmptyPosition]: one round of the loop per unit of [fuel]. *)
Fixpoint randomEmptyPosition_loop (fuel : nat) : JS Cell :=
  match fuel with
  | O => fun w => Unfinished w
  | S fuel' =>
      rx <- Math_random ;;
      let x := Int (Double.random_index rx BOARD_WIDTH) in
      ry <- Math_random ;;
      let y := Int (Double.random_index ry BOARD_HEIGHT) in
      s <- read snake ;;
      if occupies s x y then randomEmptyPosition_loop fuel' else ret (x, y)
  end.

(** Every round takes two values of [Math.random()], so the loop cannot use
    more rounds than there are values left: with this fuel it ends
    [Unfinished] only where [Math_random] does. *)
Definition randomEmptyPosition : JS Cell :=
  fun w => randomEmptyPosition_loop (S (List.length (randoms (host w)))) w.

Definition updateScoreboard : JS unit :=
  name <- read playerName ;;
  points <- read score ;;
  effect (set_scoreboard (Some (name, points))).

(** [nameInput.value.trim() || 'Spieler'] for the text [typed] into the field:
    the empty string is the one string that counts as false. *)
Definition entered_name (typed : string) : string :=
  match trim typed with
  | EmptyString => "Spieler"%string
  | name => name
  end.

Definition startGame : JS unit :=
  typed <- read_host nameInput_value ;;
  assign (set_playerName (entered_name typed)) ;;
  let startX := BOARD_WIDTH / 2 in
  let startY := BOARD_HEIGHT / 2 in
  assign (set_snake [xy startX startY; xy (startX - 1) startY;
                     xy (startX - 2) startY]) ;;
  assign (set_direction (Vec 1 0)) ;;
  assign (set_pendingDirection None) ;;
  cell <- randomEmptyPosition ;;
  assign (set_food (Some cell)) ;;
  s <- read snake ;;
  assign (set_score (Z.of_nat (List.length s))) ;;
  updateScoreboard ;;
  assign (set_running true) ;;
  id <- setInterval TICK_INTERVAL ;;
  assign (set_intervalId (Some id)) ;;
  requestAnimationFrame.

(** The lookup [map[key]] in the object literal [map] of [handleKeyDown]: one
    of the eight arrays of the literal, or, for the two names in lower case
    that every object inherits, the inherited member; [None] is [undefined]. *)
Definition map (key : string) : option Value :=
  if (key =? "arrowup")%string then Some (Vec 0 (-1))
  else if (key =? "w")%string then Some (Vec 0 (-1))
  else if (key =? "arrowdown")%string then Some (Vec 0 1)
  else if (key =? "s")%string then Some (Vec 0 1)
  else if (key =? "arrowleft")%string then Some (Vec (-1) 0)
  else if (key =? "a")%string then Some (Vec (-1) 0)
  else if (key =? "arrowright")%string then Some (Vec 1 0)
  else if (key =? "d")%string then Some (Vec 1 0)
  else if (key =? "constructor")%string then Some (Member Object_constructor)
  else if (key =? "__proto__")%string then Some (Member Object_prototype)
  else None.

(** [handleKeyDown(e)], with [e_key] the event's [key].  Whatever the lookup
    finds is an object, which counts as true. *)
Definition handleKeyDown (e_key : string) : JS unit :=
  let key := toLowerCase e_key in
  match map key with
  | Some newDir =>
      d <- read direction ;;
      if negb (slot_equal (at_index 0 newDir) (negate (to_number (at_index 0 d))))
         || negb (slot_equal (at_index 1 newDir) (negate (to_number (at_index 1 d))))
      then assign (set_pendingDirection (Some newDir))
      else ret tt
  | None => ret tt
  end.

Definition endGame : JS unit :=
  assign (set_running false) ;;
  id <- read intervalId ;;
  clearInterval id ;;
  name <- read playerName ;;
  points <- read score ;;
  alert name points ;;
  effect (set_gameContainer_hidden true) ;;
  effect (set_startScreen_hidden false).

Definition playBeep : JS unit :=
  try_catch
    (ctx <- read audioCtx ;;
     (if negb ctx
      then audio NewAudioContext ;; assign (set_audioCtx true)
      else ret tt) ;;
     audio CreateOscillator ;;
     audio CreateGain ;;
     audio ConnectOscillator ;;
     audio ConnectGain ;;
     audio SetType ;;
     audio SetFrequency ;;
     audio SetGainValue ;;
     audio StartOscillator ;;
     audio StopOscillator)
    (fun _ => ret tt).

(** The head position [tick] computes from the head and the direction; [%] is
    the remainder that takes the sign of the dividend, [Z.rem]. *)
Definition newHead (head : Cell) (d : Value) : Cell :=
  (remainder (add (add (fst head) (to_number (at_index 0 d))) BOARD_WIDTH) BOARD_WIDTH,
   remainder (add (add (snd head) (to_number (at_index 1 d))) BOARD_HEIGHT) BOARD_HEIGHT).

(** Whether the new head lies on the food; [false] when [food] is [null]. *)
Definition on_food (f : option Cell) (c : Cell) : bool :=
  match f with
  | Some f' => strict_equal (fst c) (fst f') && strict_equal (snd c) (snd f')
  | None => false
  end.

Definition tick : JS unit :=
  r <- read running ;;
  if negb r then ret tt
  else
    pending <- read pendingDirection ;;
    match pending with
    | Some d => assign (set_direction d) ;; assign (set_pendingDirection None)
    | None => ret tt
    end ;;
    s <- read snake ;;
    match s with
    | [] => throw TypeError
    | head :: _ =>
        d <- read direction ;;
        let c := newHead head d in
        if occupies s (fst c) (snd c) then endGame
        else
          assign (set_snake (c :: s)) ;;
          f <- read food ;;
          (if on_food f c
           then
             assign (fun g => set_score (score g + 1) g) ;;
             playBeep ;;
             cell <- randomEmptyPosition ;;
             assign (set_food (Some cell))
           else assign (fun g => set_snake (removelast (snake g)) g)) ;;
          updateScoreboard
    end.

(** [draw] paints the canvas, which is not part of the state here, and asks
    for the next frame while the game runs. *)
Definition draw : JS unit :=
  r <- read running ;;
  if r then requestAnimationFrame else ret tt.

(** ** The page's events *)

Inductive Event : Type :=
| StartClick
| KeyDown (e_key : string)
| TimerFires
| AnimationFrame.

(** The listener of [startBtn], [handleKeyDown], and the callbacks given to
    [setInterval] and [requestAnimationFrame]. *)
Definition handler (e : Event) : JS unit :=
  match e with
  | StartClick =>
      effect (set_startScreen_hidden true) ;;
      effect (set_gameContainer_hidden false) ;;
      startGame
  | KeyDown e_key => handleKeyDown e_key
  | TimerFires => tick
  | AnimationFrame =>
      effect (fun h => set_frames (Nat.pred (frames h)) h) ;;
      draw
  end.

(** A timer callback needs a running timer, a frame callback a request. *)
Definition enabled (e : Event) (w : World) : bool :=
  match e with
  | TimerFires => negb (Nat.eqb (List.length (timers (host w))) 0)
  | AnimationFrame => negb (Nat.eqb (frames (host w)) 0)
  | _ => true
  end.

(** The browser may change what the script will read next: the text of the
    name field, the coming random numbers and the behaviour of the audio API. *)
Definition supply (name : string) (rs : list Double.random)
    (fault : AudioCall -> bool) (h : Host) : Host :=
  mkHost name (startScreen_hidden h) (gameContainer_hidden h) (scoreboard h)
    (alerts h) (timers h) (next_timer h) (frames h) rs fault (audio_log h).

(** The states between two events.  An exception that escapes a handler ends
    that handler and leaves what it had written; a handler that never returns
    leaves no later state. *)
Inductive reachable : World -> Prop :=
| reach_load (h : Host) :
    timers h = [] -> frames h = O -> reachable (mkWorld initial_vars h)
| reach_supply (w : World) name rs fault :
    reachable w -> reachable (on_host (supply name rs fault) w)
| reach_return (w : World) (e : Event) (w' : World) :
    reachable w -> enabled e w = true -> handler e w = Returns tt w' -> reachable w'
| reach_throw (w : World) (e : Event) (err : Error) (w' : World) :
    reachable w -> enabled e w = true -> handler e w = Throws err w' -> reachable w'.

(** ** Auxiliary notions for the statements *)

(** The direction a tick moves in: the pending one when there is one. *)
Definition heading (g : Vars) : Value :=
  match pendingDirection g with
  | Some d => d
  | None => direction g
  end.

(** The state after the first statement of [tick], which takes up the pending
    direction. *)
Definition turn (g : Vars) : Vars :=
  match pendingDirection g with
  | Some d => set_pendingDirection None (set_direction d g)
  | None => g
  end.

(** A cell of two integers, and a cell of the grid. *)
Definition integral (c : Cell) : Prop :=
  exists x y : Z, c = xy x y.

Definition in_grid (c : Cell) : Prop :=
  exists x y : Z, c = xy x y /\ 0 <= x < BOARD_WIDTH /\ 0 <= y < BOARD_HEIGHT.

Definition is_direction (d : Value) : Prop :=
  d = Vec 0 (-1) \/ d = Vec 0 1 \/ d = Vec (-1) 0 \/ d = Vec 1 0.

(** The cell a pair of random values selects. *)
Definition sampled (rx ry : Double.random) : Cell :=
  xy (Double.random_index rx BOARD_WIDTH) (Double.random_index ry BOARD_HEIGHT).

(** Whether the sampling loop, fed with [rs], comes to a cell off [s]. *)
Fixpoint finds_free (rs : list Double.random) (s : list Cell) : bool :=
  match rs with
  | rx :: ry :: rest =>
      negb (occupies s (fst (sampled rx ry)) (snd (sampled rx ry))) || finds_free rest s
  | _ => false
  end.

(** The state without what only the audio path touches. *)
Definition mute (w : World) : World :=
  mkWorld (set_audioCtx false (vars w))
    (mkHost (nameInput_value (host w)) (startScreen_hidden (host w))
       (gameContainer_hidden (host w)) (scoreboard (host w)) (alerts (host w))
       (timers (host w)) (next_timer (host w)) (frames (host w)) (randoms (host w))
       (fun _ => false) []).

Definition with_audio_fault (fault : AudioCall -> bool) (w : World) : World :=
  on_host (fun h => supply (nameInput_value h) (randoms h) fault h) w.

(** The sampling loop as a function of the values it is fed: the first cell
    off [s] with the values left over, if the values reach one. *)
Fixpoint first_free (rs : list Double.random) (s : list Cell)
    : option (Cell * list Double.random) :=
  match rs with
  | rx :: ry :: rest =>
      if occupies s (fst (sampled rx ry)) (snd (sampled rx ry))
      then first_free rest s
      else Some (sampled rx ry, rest)
  | _ => None
  end.

(** The snake [startGame] builds. *)
Definition start_snake : list Cell :=
  [xy (BOARD_WIDTH / 2) (BOARD_HEIGHT / 2);
   xy (BOARD_WIDTH / 2 - 1) (BOARD_HEIGHT / 2);
   xy (BOARD_WIDTH / 2 - 2) (BOARD_HEIGHT / 2)].


(** The head is [[NaN, NaN]]. *)
Definition lost (s : list Cell) : Prop :=
  exists rest, s = xy NaN NaN :: rest.

(** What [direction] and [pendingDirection] can come to hold. *)
Definition steerable (d : Value) : Prop :=
  is_direction d \/ exists m, d = Member m.

(** What holds of the script's variables whatever keys are pressed.  Both
    directions are unit vectors or inherited members; while the game runs,
    the score is the length of the snake, which is at least its starting
    length and at most the number of cells of the grid, the snake lies inside
    the grid and on no cell twice unless its head is [[NaN, NaN]], and the
    food lies inside the grid and off the snake. *)
Definition sound (g : Vars) : Prop :=
  steerable (direction g) /\
  (forall d, pendingDirection g = Some d -> steerable d) /\
  (running g = true ->
   score g = Z.of_nat (List.length (snake g)) /\
   (3 <= List.length (snake g) <= 1200)%nat /\
   ((NoDup (snake g) /\ Forall in_grid (snake g)) \/ lost (snake g)) /\
   (forall f, food g = Some f -> in_grid f /\ ~ In f (snake g))).

(** What the data model asks of the script's variables.  The directions are
    unit vectors at all times; while the game runs, the score is the length of
    the snake, the snake has at least its starting length, lies inside the
    grid and on no cell twice, and the food lies inside the grid and off the
    snake. *)
Definition well_formed (g : Vars) : Prop :=
  is_direction (direction g) /\
  (forall d, pendingDirection g = Some d -> is_direction d) /\
  (running g = true ->
   score g = Z.of_nat (List.length (snake g)) /\
   (3 <= List.length (snake g))%nat /\
   NoDup (snake g) /\
   Forall in_grid (snake g) /\
   (forall f, food g = Some f -> in_grid f /\ ~ In f (snake g))).

(** ** Concrete states *)

(** Two values of [Math.random()]: [0], which selects index 0, and [0.5],
    which selects column 20 and row 15. *)
Definition random_zero : Double.random :=
  Double.mkRandom (S754_zero false) eq_refl.

Definition random_half : Double.random :=
  Double.mkRandom (S754_finite false 4503599627370496 (-53)) eq_refl.

(** The page during a game: the game container shown, timer 0 running, a
    working audio API, and [rs] for the coming values of [Math.random()]. *)
Definition quiet_host (rs : list Double.random) : Host :=
  mkHost EmptyString true false None [] [0%nat] 1 0 rs (fun _ => false) [].

(** The variables of a running game with snake [s], whose score is the
    snake's length. *)
Definition game_vars (s : list Cell) (d : Value) (pending : option Value)
    (f : option Cell) : Vars :=
  mkVars "Spieler"%string s d pending f true (Z.of_nat (List.length s)) (Some 0%nat)
    false.

(** A game right after its start, with the food on [f]. *)
Definition started (f : option Cell) (rs : list Double.random) : World :=
  mkWorld (game_vars start_snake (Vec 1 0) None f) (quiet_host rs).

(** A snake of five cells that has just gone up and is about to turn right,
    into its own fourth cell. *)
Definition coiled : World :=
  mkWorld
    (game_vars [xy 5 5; xy 5 6; xy 6 6; xy 6 5; xy 7 5] (Vec 0 (-1)) (Some (Vec 1 0))
       (Some (xy 0 0)))
    (quiet_host []).

(** A snake of four cells in a square whose head is about to move onto the
    cell its tail lies on. *)
Definition chasing_tail : World :=
  mkWorld
    (game_vars [xy 5 5; xy 5 6; xy 6 6; xy 6 5] (Vec 0 (-1)) (Some (Vec 1 0))
       (Some (xy 0 0)))
    (quiet_host []).

(** The page as loaded, with a name typed in and the coming values of
    [Math.random()]. *)
Definition fresh_page (rs : list Double.random) : World :=
  mkWorld initial_vars
    (mkHost "  Ada "%string false true None [] [] 0 0 rs (fun _ => false) []).

(** A value of [Math.random()] that selects index [k] of [n]: the binary64
    quotient [(2k + 1) / 2n] when that lies in the unit interval. *)
Definition random_at (k n : Z) : Double.random :=
  let v := SFdiv Double.prec Double.emax
             (Double.of_Z (2 * k + 1)) (Double.of_Z (2 * n)) in
  match bool_dec (Double.in_unit_interval v) true with
  | left ok => Double.mkRandom v ok
  | right _ => random_zero
  end.

(** The columns, the rows and the cells of the grid. *)
Definition columns : list Z := List.map Z.of_nat (seq 0 (Z.to_nat BOARD_WIDTH)).
Definition rows : list Z := List.map Z.of_nat (seq 0 (Z.to_nat BOARD_HEIGHT)).
Definition grid_cells : list Cell :=
  List.map (fun p : Z * Z => xy (fst p) (snd p)) (list_prod columns rows).

(** *** A game played until the board is full

    The cells of the grid in the order of a walk that starts on the tail of
    the starting snake, runs to the right through each row, over the right
    edge and on to the cell before the one it started the row on, and then
    steps down into the next row. *)
Definition walk : list (Z * Z) :=
  flat_map
    (fun k => List.map (fun i => ((18 - k + i) mod BOARD_WIDTH, (15 + k) mod BOARD_HEIGHT))
                columns)
    rows.

Definition spiral : list Cell := List.map (fun p : Z * Z => xy (fst p) (snd p)) walk.

(** What happens to the page between two states: the browser supplies new
    input, or an event fires and its handler runs to its end. *)
Inductive Step : Type :=
| Supply (name : string) (rs : list Double.random) (fault : AudioCall -> bool)
| Fire (e : Event).

Definition step (s : Step) (w : World) : option World :=
  match s with
  | Supply name rs fault => Some (on_host (supply name rs fault) w)
  | Fire e =>
      if enabled e w
      then match handler e w with
           | Returns _ w' | Throws _ w' => Some w'
           | Unfinished _ => None
           end
      else None
  end.

Fixpoint play (script : list Step) (w : World) : option World :=
  match script with
  | [] => Some w
  | s :: rest =>
      match step s w with
      | Some w' => play rest w'
      | None => None
      end
  end.

(** A browser without audio. *)
Definition no_audio : AudioCall -> bool := fun _ => true.

(** The random values that make the next food fall on [c]. *)
Definition food_on (c : Z * Z) : Step :=
  Supply EmptyString [random_at (fst c) BOARD_WIDTH; random_at (snd c) BOARD_HEIGHT]
    no_audio.

(** The player steers from [prev] to [next], where the food lies, and the
    next food falls on [after]. *)
Definition eat (prev next after : Z * Z) : list Step :=
  [Fire (KeyDown (if snd next =? snd prev then "d"%string else "s"%string));
   food_on after;
   Fire TimerFires].

Fixpoint eat_along (cells : list (Z * Z)) : list Step :=
  match cells with
  | prev :: ((next :: after :: _) as rest) => eat prev next after ++ eat_along rest
  | _ => []
  end.

(** Start the game with the food right before the head, then eat along the
    walk as far as it goes. *)
Definition full_game : list Step :=
  food_on (21, 15) :: Fire StartClick :: eat_along (skipn 2 walk).

(** The page as loaded, with nothing typed into the name field. *)
Definition loaded : World :=
  mkWorld initial_vars
    (mkHost EmptyString false true None [] [] 0 0 [] (fun _ => false) []).

(** The state [full_game] ends in: the snake lies on all cells of the walk but
    the last, which holds the food, and its head is about to move there. *)
Definition crowded : World :=
  mkWorld
    (mkVars "Spieler" (rev (firstn 1199 spiral)) (Vec 1 0) None (Some (xy 28 14)) true 1199
       (Some 0%nat) false)
    (mkHost EmptyString true false (Some ("Spieler"%string, 1199)) [] [0%nat] 1 1 []
       no_audio []).

(** The state after a click on the start button of [fresh_page], when the
    first sample, (20, 15), falls on the snake and the second, (0, 0), is free. *)
Definition after_start : World :=
  mkWorld
    (mkVars "Ada" [xy 20 15; xy 19 15; xy 18 15] (Vec 1 0) None (Some (xy 0 0)) true 3
       (Some 0%nat) false)
    (mkHost "  Ada " true false (Some ("Ada"%string, 3)) [] [0%nat] 1 1 []
       (fun _ => false) []).


(** ** Further notions for the properties of the whole script *)

(** The vector [[-d[0], -d[1]]] that [handleKeyDown] compares a key with. *)
Definition opposite (d : Value) : Value :=
  match d with
  | Vec dx dy => Vec (- dx) (- dy)
  | Member m => Member m
  end.

(** The test of [handleKeyDown] that keeps a key from being taken up:
    [newDir[0] === -d[0] && newDir[1] === -d[1]]. *)
Definition reverses (newDir d : Value) : bool :=
  slot_equal (at_index 0 newDir) (negate (to_number (at_index 0 d))) &&
  slot_equal (at_index 1 newDir) (negate (to_number (at_index 1 d))).

(** [a] is the cell one step from [b] in one of the four directions. *)
Definition step_apart (a b : Cell) : Prop :=
  exists d, is_direction d /\ a = newHead b d.

(** Every segment is one step from the segment behind it. *)
Fixpoint chained (s : list Cell) : Prop :=
  match s with
  | a :: ((b :: _) as s') => step_apart a b /\ chained s'
  | _ => True
  end.

(** How the snake and the two directions go together: what is pending never
    reverses the direction, and while the game runs there is food, the snake
    is chained, and its head lies one step in the direction from the segment
    behind it. *)
Definition moving (g : Vars) : Prop :=
  (forall d, pendingDirection g = Some d -> d <> opposite (direction g)) /\
  (running g = true ->
   food g <> None /\
   chained (snake g) /\
   (forall h n rest, snake g = h :: n :: rest -> h = newHead n (direction g))).

(** Whether stepping from [n] in direction [d] and then in [d'] leads away
    from [n], for all cells of the grid and all pairs of directions of which
    the second does not reverse the first. *)
Definition directions : list Value := [Vec 0 (-1); Vec 0 1; Vec (-1) 0; Vec 1 0].

Definition cell_eqb (a b : Cell) : bool :=
  strict_equal (fst a) (fst b) && strict_equal (snd a) (snd b).

Definition leads_away (n : Cell) (d d' : Value) : bool :=
  reverses d' d || negb (cell_eqb (newHead (newHead n d) d') n).


(** The timers and frame requests of the page: ids are handed out in
    increasing order, the timer of a running game runs, the timer of a game
    that is over does not, and a running game has a frame request pending. *)
Definition timed (w : World) : Prop :=
  Forall (fun i => (i < next_timer (host w))%nat) (timers (host w)) /\
  (forall id, intervalId (vars w) = Some id -> (id < next_timer (host w))%nat) /\
  (running (vars w) = true ->
   (exists id, intervalId (vars w) = Some id /\ In id (timers (host w))) /\
   (1 <= frames (host w))%nat) /\
  (running (vars w) = false ->
   forall id, intervalId (vars w) = Some id -> ~ In id (timers (host w))).

(** No timer runs but the one [intervalId] holds. *)
Definition single_timer (w : World) : Prop :=
  forall id, In id (timers (host w)) -> intervalId (vars w) = Some id.

(** The calls [playBeep] is about to make, and those of them that go through:
    the ones before the first that throws. *)
Definition playBeep_calls (ctx : bool) : list AudioCall :=
  (if ctx then [] else [NewAudioContext]) ++
  [CreateOscillator; CreateGain; ConnectOscillator; ConnectGain; SetType;
   SetFrequency; SetGainValue; StartOscillator; StopOscillator].

Fixpoint until_fault (fault : AudioCall -> bool) (calls : list AudioCall)
    : list AudioCall :=
  match calls with
  | [] => []
  | c :: rest => if fault c then [] else c :: until_fault fault rest
  end.

(** Whether all characters of a string are white space. *)
Fixpoint blank (s : string) : bool :=
  match s with
  | EmptyString => true
  | String c s' => is_space c && blank s'
  end.

(** The pairs of values the sampling loop takes from [rs] all select cells on
    [s]. *)
Fixpoint all_rejected (rs : list Double.random) (s : list Cell) : bool :=
  match rs with
  | [] => true
  | rx :: ry :: rest =>
      occupies s (fst (sampled rx ry)) (snd (sampled rx ry)) && all_rejected rest s
  | _ => false
  end.

(** What a key press leaves pending when the direction is [d]: what the map
    holds for the key, unless that is the exact opposite of [d], and else what
    was pending before. *)
Definition steer (d : Value) (pending : option Value) (e_key : string)
    : option Value :=
  match map (toLowerCase e_key) with
  | Some newDir => if reverses newDir d then pending else Some newDir
  | None => pending
  end.

(** A key whose name in lower case the map does not hold itself but
    inherits. *)
Definition inherited_key (e_key : string) : bool :=
  match map (toLowerCase e_key) with
  | Some (Member _) => true
  | _ => false
  end.

(** A step of the page that is no press of such a key. *)
Definition ordinary (s : Step) : bool :=
  match s with
  | Fire (KeyDown e_key) => negb (inherited_key e_key)
  | _ => true
  end.

(** The key presses [keys] as events, in their order. *)
Definition key_presses (keys : list string) : list Step :=
  List.map (fun e_key => Fire (KeyDown e_key)) keys.

(** A timer that runs although [intervalId] does not hold its id. *)
Definition stale (old : nat) (w : World) : Prop :=
  In old (timers (host w)) /\ intervalId (vars w) <> Some old.

(** [n] steps in direction [d], each as [tick] computes it. *)
Definition steps (n : nat) (d : Value) (c : Cell) : Cell :=
  Nat.iter n (fun c' => newHead c' d) c.

(** A short game: the first food lies right before the head and is eaten by
    the first tick; the snake, now four cells long, then turns down, left and
    up, so that its next step leads onto the cell its tail lies on. *)
Definition square_game : list Step :=
  [food_on (21, 15); Fire StartClick; food_on (0, 0); Fire TimerFires;
   Fire (KeyDown "s"); Fire TimerFires; Fire (KeyDown "a"); Fire TimerFires;
   Fire (KeyDown "w")].

(** The state [square_game] ends in. *)
Definition squared : World :=
  mkWorld
    (mkVars "Spieler" [xy 20 16; xy 21 16; xy 21 15; xy 20 15] (Vec (-1) 0)
       (Some (Vec 0 (-1))) (Some (xy 0 0)) true 4 (Some 0%nat) false)
    (mkHost EmptyString true false (Some ("Spieler"%string, 4)) [] [0%nat] 1 1 []
       no_audio []).

(** A step of the page that is no click on the start button. *)
Definition no_restart (s : Step) : bool :=
  match s with
  | Fire StartClick => false
  | _ => true
  end.

(** The state after [square_game], a press of the key [Constructor] and a
    tick: the inherited member has become the direction, and the head is
    [[NaN, NaN]]. *)
Definition derailed : World :=
  mkWorld
    (mkVars "Spieler" [xy NaN NaN; xy 20 16; xy 21 16; xy 21 15]
       (Member Object_constructor) None (Some (xy 0 0)) true 4 (Some 0%nat) false)
    (mkHost EmptyString true false (Some ("Spieler"%string, 4)) [] [0%nat] 1 1 []
       no_audio []).
(** *** Right shifts of the rounding procedure *)

Section Shr.

Import Double.

Lemma shr_n_add (j k : nat) (mrs : shr_record) :
  shr_n (j + k) mrs = shr_n k (shr_n j mrs).
Proof.
  revert mrs; induction j as [|j IH]; intros mrs; simpl; [reflexivity|].
  apply IH.
Qed.

Lemma iter_pos_shr_n (p : positive) (mrs : shr_record) :
  iter_pos shr_1 p mrs = shr_n (Pos.to_nat p) mrs.
Proof.
  revert mrs; induction p as [p IH|p IH|]; intros mrs; cbn [iter_pos].
  - rewrite !IH, Pos2Nat.inj_xI.
    replace (S (2 * Pos.to_nat p)) with (1 + Pos.to_nat p + Pos.to_nat p)%nat by lia.
    rewrite !shr_n_add. reflexivity.
  - rewrite !IH, Pos2Nat.inj_xO.
    replace (2 * Pos.to_nat p)%nat with (Pos.to_nat p + Pos.to_nat p)%nat by lia.
    rewrite shr_n_add. reflexivity.
  - reflexivity.
Qed.

Lemma shr_1_m (mrs : shr_record) :
  0 <= shr_m mrs -> shr_m (shr_1 mrs) = shr_m mrs / 2.
Proof.
  destruct mrs as [m r s]; simpl; intros Hm.
  destruct m as [|[p|p|]|p]; simpl; try lia; try reflexivity.
  - rewrite Pos2Z.inj_xI. apply Z.div_unique with (r := 1); lia.
  - rewrite Pos2Z.inj_xO. apply Z.div_unique with (r := 0); lia.
Qed.

Lemma shr_1_r (mrs : shr_record) :
  0 <= shr_m mrs -> shr_r (shr_1 mrs) = Z.odd (shr_m mrs).
Proof.
  destruct mrs as [m r s]; simpl; intros Hm.
  destruct m as [|[p|p|]|p]; simpl; try lia; reflexivity.
Qed.

(** After [k] steps the mantissa is the quotient by [2^k]; the round bit, when
    set, says that the remainder is at least half of [2^k]. *)
Lemma shr_n_spec (k : nat) (m : Z) :
  0 <= m ->
  let mrs := shr_n k (Build_shr_record m false false) in
  shr_m mrs = m / 2 ^ Z.of_nat k /\
  (shr_r mrs = true -> 2 ^ Z.of_nat k <= 2 * (m mod 2 ^ Z.of_nat k)).
Proof.
  intros Hm.
  induction k as [|k IH].
  - simpl. split; [now rewrite Z.div_1_r | discriminate].
  - cbv zeta in *.
    replace (S k) with (k + 1)%nat by lia.
    rewrite shr_n_add. simpl shr_n.
    destruct IH as [IHm _].
    set (mk := shr_n k (Build_shr_record m false false)) in *.
    assert (Hk : 0 < 2 ^ Z.of_nat k) by (apply Z.pow_pos_nonneg; lia).
    assert (Hmk : 0 <= shr_m mk) by (rewrite IHm; apply Z.div_pos; lia).
    rewrite shr_1_m, shr_1_r by assumption.
    rewrite IHm.
    replace (Z.of_nat (k + 1)) with (Z.of_nat k + 1) by lia.
    rewrite Z.pow_add_r, Z.pow_1_r by lia.
    split.
    + rewrite Z.div_div by lia. reflexivity.
    + intros Hodd.
      rewrite Z.rem_mul_r by lia.
      rewrite Zmod_odd, Hodd.
      pose proof (Z.mod_pos_bound m (2 ^ Z.of_nat k) Hk). lia.
Qed.

Lemma shr_spec (m e n : Z) :
  0 <= m ->
  let k := Z.max n 0 in
  let mrs := fst (shr (Build_shr_record m false false) e n) in
  shr_m mrs = m / 2 ^ k /\
  snd (shr (Build_shr_record m false false) e n) = e + k /\
  (shr_r mrs = true -> 2 ^ k <= 2 * (m mod 2 ^ k)).
Proof.
  intros Hm. cbv zeta.
  destruct n as [|p|p]; cbn [shr fst snd].
  - rewrite Z.max_id. simpl. rewrite Z.div_1_r. repeat split; [lia | discriminate].
  - rewrite iter_pos_shr_n.
    replace (Z.max (Z.pos p) 0) with (Z.of_nat (Pos.to_nat p)) by lia.
    pose proof (shr_n_spec (Pos.to_nat p) m Hm) as [H1 H2].
    repeat split; [exact H1 | lia | exact H2].
  - replace (Z.max (Z.neg p) 0) with 0 by lia.
    simpl. rewrite Z.div_1_r. repeat split; [lia | discriminate].
Qed.

Lemma round_nearest_even_spec (mrs : shr_record) :
  let m' := round_nearest_even (shr_m mrs) (loc_of_shr_record mrs) in
  shr_m mrs <= m' <= shr_m mrs + 1 /\ (m' <> shr_m mrs -> shr_r mrs = true).
Proof.
  destruct mrs as [m [|] [|]]; simpl; try destruct (Z.even m); split; try lia;
    try reflexivity; intros H; now elim H.
Qed.

End Shr.

(** *** Sizes of mantissas *)

Section Digits.

Lemma digits2_pos_size (p : positive) : digits2_pos p = Pos.size p.
Proof. induction p; simpl; congruence. Qed.

Lemma digits2_pos_gt (p : positive) : Z.pos p < 2 ^ Z.pos (digits2_pos p).
Proof.
  rewrite digits2_pos_size.
  pose proof (Pos.size_gt p) as H.
  apply Pos2Z.pos_lt_pos in H. now rewrite Pos2Z.inj_pow in H.
Qed.

Lemma digits2_pos_le (p : positive) : 2 ^ Z.pos (digits2_pos p) <= 2 * Z.pos p.
Proof.
  rewrite digits2_pos_size.
  pose proof (Pos.size_le p) as H.
  apply Pos2Z.pos_le_pos in H. now rewrite Pos2Z.inj_pow in H.
Qed.

Lemma Zdigits2_le (z b : Z) : 0 <= b -> 0 <= z < 2 ^ b -> 0 <= Zdigits2 z <= b.
Proof.
  intros Hb [Hz Hlt].
  destruct z as [|p|p]; simpl; try lia.
  split; [lia|].
  pose proof (digits2_pos_le p) as Hle.
  assert (H : 2 ^ Z.pos (digits2_pos p) < 2 ^ (b + 1)).
  { rewrite Z.pow_add_r, Z.pow_1_r by lia. lia. }
  apply Z.pow_lt_mono_r_iff in H; lia.
Qed.

End Digits.

(** *** [Math.floor(Math.random() * n)] lies in [0, n) *)

Section RandomIndex.

Import Double.

Lemma shiftl_scaled (m e K : Z) :
  0 <= K -> - K <= e -> Z.shiftl m e = (m * 2 ^ (e + K)) / 2 ^ K.
Proof.
  intros HK He.
  assert (H2K : 0 < 2 ^ K) by (apply Z.pow_pos_nonneg; lia).
  destruct (Z.le_gt_cases 0 e) as [Hpos|Hneg].
  - rewrite Z.shiftl_mul_pow2 by lia.
    rewrite Z.pow_add_r, Z.mul_assoc by lia.
    now rewrite Z.div_mul by lia.
  - rewrite <- (Z.opp_involutive e) at 1.
    rewrite Z.shiftl_opp_r, Z.shiftr_div_pow2 by lia.
    assert (He' : 0 < 2 ^ (e + K)) by (apply Z.pow_pos_nonneg; lia).
    replace (2 ^ K) with (2 ^ (- e) * 2 ^ (e + K))
      by (rewrite <- Z.pow_add_r by lia; f_equal; lia).
    now rewrite Z.div_mul_cancel_r by lia.
Qed.

Lemma one_eq : one = S754_finite false 4503599627370496 (-52).
Proof. vm_compute. reflexivity. Qed.

(** A number of [0 <= r < 1] has a mantissa below [2^(-e)]. *)
Lemma unit_interval_finite (m : positive) (e : Z) :
  in_unit_interval (S754_finite false m e) = true ->
  Z.pos m < 2 ^ (- e) /\ Z.pos m < 2 ^ 53 /\ -1074 <= e < 0.
Proof.
  unfold in_unit_interval. intros H.
  apply andb_prop in H as [H Hlt]. apply andb_prop in H as [Hv _].
  cbn [valid_binary] in Hv. unfold bounded, canonical_mantissa in Hv.
  apply andb_prop in Hv as [Hc _]. apply Z.eqb_eq in Hc.
  unfold fexp, SpecFloat.emin, prec, emax in Hc.
  pose proof (digits2_pos_gt m) as Hd.
  set (d := Z.pos (digits2_pos m)) in *.
  assert (Hd0 : 0 < d) by (unfold d; lia).
  assert (Hd53 : d <= 53) by (clearbody d; clear Hd; lia).
  assert (Hm53 : Z.pos m < 2 ^ 53).
  { eapply Z.lt_le_trans; [exact Hd|]. apply Z.pow_le_mono_r; clearbody d; clear Hd; lia. }
  rewrite one_eq in Hlt. unfold SFltb in Hlt. cbn [SFcompare] in Hlt.
  destruct (Z.compare_spec e (-52)) as [He|He|He]; try discriminate.
  - subst e.
    rewrite Pos.compare_cont_spec in Hlt. cbn [Pos.switch_Eq] in Hlt.
    destruct (Pos.compare_spec m 4503599627370496) as [?|Hm|?]; try discriminate.
    split; [|split; [exact Hm53 | clear; lia]].
    apply Pos2Z.pos_lt_pos in Hm. exact Hm.
  - assert (He' : -1074 <= e < 0) by (clearbody d; clear Hd Hm53; lia).
    split; [|split; [exact Hm53 | exact He']].
    eapply Z.lt_le_trans; [exact Hd|].
    apply Z.pow_le_mono_r; clearbody d; clear Hd Hm53; lia.
Qed.

Variables (n : Z) (my : positive) (ey : Z).
Hypothesis my_lo : 2 ^ 52 < Z.pos my.
Hypothesis my_hi : Z.pos my < 2 ^ 53.
Hypothesis ey_range : -52 <= ey <= 0.
Hypothesis my_n : Z.pos my = n * 2 ^ (- ey).

Lemma mul_unit_interval (m : positive) (e : Z) :
  in_unit_interval (S754_finite false m e) = true ->
  let x := mul (S754_finite false m e) (S754_finite false my ey) in
  is_finite x = true /\ 0 <= floor x < n.
Proof.
  intros Hr. apply unit_interval_finite in Hr as (Hm & Hm53 & He).
  cbv zeta. unfold mul. cbn [SFmul xorb].
  set (M := Z.pos (m * my)). set (E := e + ey).
  assert (HM : 0 <= M) by (unfold M; lia).
  assert (Hpe : 0 < 2 ^ (- e)) by (apply Z.pow_pos_nonneg; lia).
  assert (HMlt : M + Z.pos my <= Z.pos my * 2 ^ (- e)).
  { unfold M. rewrite Pos2Z.inj_mul. nia. }
  assert (H53 : 2 ^ (- e) <= 2 ^ 1074) by (apply Z.pow_le_mono_r; lia).
  assert (Hn : 0 < n).
  { assert (0 < 2 ^ (- ey)) by (apply Z.pow_pos_nonneg; lia). nia. }
  unfold binary_round_aux, shr_fexp.
  cbn [shr_record_of_loc].
  (* first shift *)
  set (n1 := fexp prec emax (Zdigits2 M + E) - E).
  pose proof (shr_spec M E n1 HM) as (Hm1 & He1 & Hr1). cbv zeta in Hm1, He1, Hr1.
  destruct (shr (Build_shr_record M false false) E n1) as [mrs1 e1].
  cbn [fst snd] in Hm1, He1, Hr1.
  set (k1 := Z.max n1 0) in *.
  (* rounding *)
  pose proof (round_nearest_even_spec mrs1) as [Hm2 Hup]. cbv zeta in Hm2, Hup.
  set (m2 := round_nearest_even (shr_m mrs1) (loc_of_shr_record mrs1)) in *.
  assert (Hk1 : 0 <= k1) by (unfold k1; lia).
  assert (H2k1 : 0 < 2 ^ k1) by (apply Z.pow_pos_nonneg; lia).
  assert (Hm1' : 0 <= shr_m mrs1) by (rewrite Hm1; apply Z.div_pos; lia).
  assert (H0m2 : 0 <= m2) by lia.
  (* second shift *)
  set (n2 := fexp prec emax (Zdigits2 m2 + e1) - e1).
  pose proof (shr_spec m2 e1 n2 H0m2) as (Hm3 & He3 & _). cbv zeta in Hm3, He3.
  destruct (shr (Build_shr_record m2 false false) e1 n2) as [mrs3 e3].
  cbn [fst snd] in Hm3, He3.
  set (k2 := Z.max n2 0) in *.
  assert (Hk2 : 0 <= k2) by (unfold k2; lia).
  assert (H2k2 : 0 < 2 ^ k2) by (apply Z.pow_pos_nonneg; lia).
  (* sizes *)
  assert (HM106 : 0 <= M < 2 ^ 106).
  { split; [exact HM|]. unfold M. rewrite Pos2Z.inj_mul.
    change (2 ^ 106) with (2 ^ 53 * 2 ^ 53).
    apply Z.mul_lt_mono_nonneg; lia. }
  pose proof (Zdigits2_le M 106 ltac:(lia) HM106) as HdM.
  assert (Hk1le : k1 <= 53).
  { unfold k1, n1, fexp, SpecFloat.emin, prec, emax, E.
    clear - HdM He ey_range. lia. }
  assert (He1le : -1126 <= e1 <= 52).
  { unfold E in He1. clear - He1 Hk1 Hk1le He ey_range. lia. }
  assert (Hm1le : shr_m mrs1 <= M).
  { rewrite Hm1. apply Z.div_le_upper_bound; [lia|].
    clear - HM H2k1. nia. }
  assert (Hm2107 : 0 <= m2 < 2 ^ 107).
  { split; [exact H0m2|].
    change (2 ^ 107) with (2 ^ 106 + 2 ^ 106).
    assert (0 < 2 ^ 106) by reflexivity. clear - Hm2 Hm1le HM106 H. lia. }
  pose proof (Zdigits2_le m2 107 ltac:(lia) Hm2107) as Hdm2.
  assert (He3le : -1126 <= e3 <= 971).
  { unfold k2, n2, fexp, SpecFloat.emin, prec, emax in He3.
    clear - He3 He1le Hdm2. lia. }
  (* the rounded mantissa stays below the bound *)
  assert (Hval : m2 * 2 ^ k1 < Z.pos my * 2 ^ (- e)).
  { assert (H2k : 2 ^ k1 <= 2 ^ 53) by (apply Z.pow_le_mono_r; lia).
    pose proof (Z.div_mod M (2 ^ k1) ltac:(lia)) as Hdm.
    rewrite <- Hm1 in Hdm.
    pose proof (Z.mod_pos_bound M (2 ^ k1) H2k1) as Hmod.
    destruct (Z.eq_dec m2 (shr_m mrs1)) as [Heq|Hne].
    - rewrite Heq.
      clear - Hdm Hmod HMlt. nia.
    - specialize (Hr1 (Hup Hne)).
      assert (Hm2eq : m2 = shr_m mrs1 + 1) by (clear - Hm2 Hne; lia).
      rewrite Hm2eq.
      assert (H252 : 2 ^ 53 = 2 * 2 ^ 52) by reflexivity.
      clear - Hdm Hmod HMlt Hr1 H2k my_lo H252. nia. }
  assert (Hm3le : shr_m mrs3 * 2 ^ k2 <= m2).
  { rewrite Hm3, Z.mul_comm. apply Z.mul_div_le. exact H2k2. }
  assert (Hm3pos : 0 <= shr_m mrs3) by (rewrite Hm3; apply Z.div_pos; lia).
  destruct (shr_m mrs3) as [|m3|m3] eqn:Hm3eq; [split; [reflexivity|simpl; lia]| |lia].
  replace (e3 <=? emax - prec) with true
    by (symmetry; apply Z.leb_le; unfold emax, prec; clear - He3le; lia).
  split; [reflexivity|].
  cbn [floor cond_Zopp].
  rewrite (shiftl_scaled _ _ 1200) by (clear - He3le; lia).
  set (P := 2 ^ (E + 1200)).
  assert (HP : 0 < P) by (apply Z.pow_pos_nonneg; unfold E; clear - He ey_range; lia).
  assert (Hp3 : 2 ^ (e3 + 1200) = 2 ^ k2 * (2 ^ k1 * P)).
  { unfold P. rewrite <- !Z.pow_add_r by (unfold E; clear - He ey_range Hk1 Hk2; lia).
    f_equal. clear - He1 He3. lia. }
  assert (Hp0 : 2 ^ 1200 = 2 ^ (- ey) * (2 ^ (- e) * P)).
  { unfold P. rewrite <- !Z.pow_add_r by (unfold E; clear - He ey_range; lia).
    f_equal. unfold E. clear. lia. }
  rewrite Hp3, Hp0.
  assert (Hpey : 0 < 2 ^ (- ey)) by (apply Z.pow_pos_nonneg; clear - ey_range; lia).
  split.
  - apply Z.div_pos; [|clear - Hpey Hpe HP; nia].
    clear - H2k2 H2k1 HP. nia.
  - apply Z.div_lt_upper_bound; [clear - Hpey Hpe HP; nia|].
    rewrite my_n in Hval.
    apply Z.le_lt_trans with (m2 * 2 ^ k1 * P).
    + rewrite !Z.mul_assoc. apply Z.mul_le_mono_nonneg_r; [lia|].
      apply Z.mul_le_mono_nonneg_r; [lia|]. exact Hm3le.
    + replace (2 ^ (- ey) * (2 ^ (- e) * P) * n) with (n * 2 ^ (- ey) * 2 ^ (- e) * P) by ring.
      apply Z.mul_lt_mono_pos_r; [exact HP|exact Hval].
Qed.

End RandomIndex.

Section RandomIndexRange.

Import Double.

(** The sampling expression at a bound [n] whose binary64 form has mantissa
    [my] and exponent [ey]: the product is a finite number and its floor is an
    index below [n], although the product is rounded. *)
Lemma random_index_range (r : random) (n : Z) (my : positive) (ey : Z) :
  of_Z n = S754_finite false my ey ->
  2 ^ 52 < Z.pos my < 2 ^ 53 ->
  -52 <= ey <= 0 ->
  Z.pos my = n * 2 ^ (- ey) ->
  is_finite (mul (value r) (of_Z n)) = true /\ 0 <= random_index r n < n.
Proof.
  intros Hn [Hlo Hhi] Hey Hmy.
  assert (Hpos : 0 < n).
  { assert (0 < 2 ^ (- ey)) by (apply Z.pow_pos_nonneg; lia).
    assert (0 < Z.pos my) by reflexivity. nia. }
  unfold random_index. rewrite Hn.
  destruct r as [v Hv]. cbn [value].
  destruct v as [s|s| |s m e].
  - cbn. split; [reflexivity | lia].
  - exfalso. unfold in_unit_interval in Hv.
    apply andb_prop in Hv as [Hv Hlt]. apply andb_prop in Hv as [_ Hle].
    rewrite one_eq in Hlt. destruct s; [discriminate Hle | discriminate Hlt].
  - exfalso. unfold in_unit_interval in Hv.
    apply andb_prop in Hv as [Hv Hlt]. discriminate Hlt.
  - destruct s.
    + exfalso. unfold in_unit_interval in Hv.
      apply andb_prop in Hv as [Hv Hlt]. apply andb_prop in Hv as [_ Hle].
      discriminate Hle.
    + apply (mul_unit_interval n my ey Hlo Hhi Hey Hmy m e Hv).
Qed.

End RandomIndexRange.

(** * Properties *)

Local Open Scope js_scope.

(** ** Records and the monad *)

Lemma on_host_randoms_id (w : World) :
  on_host (set_randoms (randoms (host w))) w = w.
Proof. destruct w as [g h]; destruct h; reflexivity. Qed.

(** ** Cells *)

Lemma strict_equal_eq (a b : Num) :
  strict_equal a b = true <-> exists z, a = Int z /\ b = Int z.
Proof.
  destruct a as [x|], b as [y|]; cbn [strict_equal].
  - rewrite Z.eqb_eq. split.
    + intros ->. now exists y.
    + intros (z & Ha & Hb). congruence.
  - split; [discriminate | intros (z & _ & H); discriminate H].
  - split; [discriminate | intros (z & H & _); discriminate H].
  - split; [discriminate | intros (z & H & _); discriminate H].
Qed.

Lemma same_cell_eq (x y : Num) (seg : Cell) :
  same_cell x y seg = true <-> exists a b, x = Int a /\ y = Int b /\ seg = xy a b.
Proof.
  destruct seg as [sx sy]. unfold same_cell. cbn [fst snd].
  rewrite andb_true_iff, !strict_equal_eq. split.
  - intros [(a & -> & ->) (b & -> & ->)]. now exists a, b.
  - intros (a & b & -> & -> & H). injection H as -> ->. split; eauto.
Qed.

Lemma occupies_iff (s : list Cell) (x y : Num) :
  occupies s x y = true <-> exists a b, x = Int a /\ y = Int b /\ In (xy a b) s.
Proof.
  unfold occupies. rewrite existsb_exists. split.
  - intros (seg & Hin & Hc). apply same_cell_eq in Hc as (a & b & -> & -> & ->).
    now exists a, b.
  - intros (a & b & -> & -> & Hin). exists (xy a b). split; [exact Hin|].
    apply same_cell_eq. now exists a, b.
Qed.

Lemma occupies_In (s : list Cell) (x y : Z) :
  occupies s x y = true <-> In (xy x y) s.
Proof.
  rewrite occupies_iff. split.
  - intros (a & b & Ha & Hb & Hin). injection Ha as ->. injection Hb as ->. exact Hin.
  - intros Hin. now exists x, y.
Qed.

(** [===] finds a cell on the snake when the cell is one of the snake's and
    holds two integers. *)
Lemma occupies_In_integral (s : list Cell) (c : Cell) :
  occupies s (fst c) (snd c) = true <-> In c s /\ integral c.
Proof.
  rewrite occupies_iff. destruct c as [x y]. cbn [fst snd]. split.
  - intros (a & b & -> & -> & Hin). split; [exact Hin | now exists a, b].
  - intros (Hin & a & b & Hc). injection Hc as -> ->. now exists a, b.
Qed.

Lemma occupies_off (s : list Cell) (c : Cell) :
  ~ In c s -> occupies s (fst c) (snd c) = false.
Proof.
  intros Hoff. destruct (occupies s (fst c) (snd c)) eqn:Hocc; [|reflexivity].
  apply occupies_In_integral in Hocc as [Hin _]. contradiction.
Qed.

Lemma occupies_false_In (s : list Cell) (c : Cell) :
  integral c -> occupies s (fst c) (snd c) = false <-> ~ In c s.
Proof.
  intros Hc. split; [|apply occupies_off].
  intros Hocc Hin.
  assert (H : occupies s (fst c) (snd c) = true) by now apply occupies_In_integral.
  congruence.
Qed.

Lemma in_grid_integral (c : Cell) : in_grid c -> integral c.
Proof. intros (x & y & -> & _). now exists x, y. Qed.

Lemma in_grid_xy (x y : Z) :
  in_grid (xy x y) <-> 0 <= x < BOARD_WIDTH /\ 0 <= y < BOARD_HEIGHT.
Proof.
  split.
  - intros (a & b & H & Ha & Hb). injection H as -> ->. split; assumption.
  - intros [Hx Hy]. now exists x, y.
Qed.

Lemma range_covers (n : nat) (x : Z) :
  0 <= x < Z.of_nat n -> In x (List.map Z.of_nat (seq 0 n)).
Proof.
  intros Hx. rewrite <- (Z2Nat.id x) by lia.
  apply in_map, in_seq. lia.
Qed.

(** ** [tick], path by path *)

Lemma tick_idle (w : World) :
  running (vars w) = false -> tick w = Returns tt w.
Proof.
  intros Hr. unfold tick, bind, read. rewrite Hr. reflexivity.
Qed.

Ltac js_simpl :=
  cbn [bind read assign effect read_host ret throw try_catch
       vars host on_vars on_host
       playerName snake direction pendingDirection food running score intervalId audioCtx
       nameInput_value startScreen_hidden gameContainer_hidden scoreboard alerts timers
       next_timer frames randoms audio_fault audio_log
       set_playerName set_snake set_direction set_pendingDirection set_food set_running
       set_score set_intervalId set_audioCtx
       set_startScreen_hidden set_gameContainer_hidden set_scoreboard set_alerts set_timers
       set_next_timer set_frames set_randoms set_audio_log
       negb].

Ltac js_simpl_in H :=
  cbn [bind read assign effect read_host ret throw try_catch
       vars host on_vars on_host
       playerName snake direction pendingDirection food running score intervalId audioCtx
       nameInput_value startScreen_hidden gameContainer_hidden scoreboard alerts timers
       next_timer frames randoms audio_fault audio_log
       set_playerName set_snake set_direction set_pendingDirection set_food set_running
       set_score set_intervalId set_audioCtx
       set_startScreen_hidden set_gameContainer_hidden set_scoreboard set_alerts set_timers
       set_next_timer set_frames set_randoms set_audio_log
       negb] in H.

Lemma tick_empty (w : World) :
  running (vars w) = true ->
  snake (vars w) = [] ->
  tick w = Throws TypeError (mkWorld (turn (vars w)) (host w)).
Proof.
  intros Hr Hs. unfold tick, turn. js_simpl. rewrite Hr. js_simpl.
  destruct (pendingDirection (vars w)) as [d|] eqn:Hp; js_simpl; rewrite Hs; js_simpl.
  - reflexivity.
  - destruct w; reflexivity.
Qed.

(** The host after [endGame]. *)
Lemma endGame_returns (w : World) :
  endGame w =
  Returns tt
    (mkWorld (set_running false (vars w))
       (set_startScreen_hidden false
          (set_gameContainer_hidden true
             (set_alerts ((playerName (vars w), score (vars w)) :: alerts (host w))
                (stop_timer (intervalId (vars w)) (host w)))))).
Proof. reflexivity. Qed.

Lemma tick_collision (w : World) (head : Cell) (rest : list Cell) :
  running (vars w) = true ->
  snake (vars w) = head :: rest ->
  let c := newHead head (heading (vars w)) in
  occupies (head :: rest) (fst c) (snd c) = true ->
  tick w = endGame (mkWorld (turn (vars w)) (host w)).
Proof.
  intros Hr Hs c Hhit.
  unfold tick. js_simpl. rewrite Hr. js_simpl.
  unfold heading in c. unfold turn.
  destruct (pendingDirection (vars w)) as [d|] eqn:Hp; js_simpl; rewrite Hs; js_simpl;
    fold c; rewrite Hhit.
  - reflexivity.
  - destruct w; reflexivity.
Qed.

Lemma tick_move (w : World) (head : Cell) (rest : list Cell) :
  running (vars w) = true ->
  snake (vars w) = head :: rest ->
  let c := newHead head (heading (vars w)) in
  occupies (head :: rest) (fst c) (snd c) = false ->
  on_food (food (vars w)) c = false ->
  tick w =
  Returns tt
    (mkWorld (set_snake (c :: removelast (head :: rest)) (turn (vars w)))
       (set_scoreboard (Some (playerName (vars w), score (vars w))) (host w))).
Proof.
  intros Hr Hs c Hfree Hfood.
  unfold tick. js_simpl. rewrite Hr. js_simpl.
  unfold heading in c. unfold turn.
  destruct (pendingDirection (vars w)) as [d|] eqn:Hp; js_simpl; rewrite Hs; js_simpl;
    fold c; rewrite Hfree; js_simpl; rewrite Hfood; js_simpl;
    unfold updateScoreboard; js_simpl; reflexivity.
Qed.

(** ** The sampling loop *)

Lemma list_pair_ind {A : Type} (P : list A -> Prop) :
  P [] -> (forall x, P [x]) -> (forall x y l, P l -> P (x :: y :: l)) ->
  forall l, P l.
Proof.
  intros H0 H1 H2 l.
  enough (H : P l /\ forall x, P (x :: l)) by apply H.
  induction l as [|a l [IH1 IH2]]; split; auto.
Qed.

Lemma board_width_index (r : Double.random) :
  0 <= Double.random_index r BOARD_WIDTH < BOARD_WIDTH.
Proof.
  apply (random_index_range r BOARD_WIDTH 5629499534213120 (-47)).
  - vm_compute. reflexivity.
  - split; reflexivity.
  - lia.
  - reflexivity.
Qed.

Lemma board_height_index (r : Double.random) :
  0 <= Double.random_index r BOARD_HEIGHT < BOARD_HEIGHT.
Proof.
  apply (random_index_range r BOARD_HEIGHT 8444249301319680 (-48)).
  - vm_compute. reflexivity.
  - split; reflexivity.
  - lia.
  - reflexivity.
Qed.

Lemma sampled_in_grid (rx ry : Double.random) : in_grid (sampled rx ry).
Proof.
  apply in_grid_xy. split; [apply board_width_index | apply board_height_index].
Qed.

Lemma first_free_sound (rs rest : list Double.random) (s : list Cell) (c : Cell) :
  first_free rs s = Some (c, rest) ->
  in_grid c /\ occupies s (fst c) (snd c) = false.
Proof.
  induction rs as [| rx | rx ry rs IH] using list_pair_ind; cbn [first_free];
    try discriminate.
  destruct (occupies s (fst (sampled rx ry)) (snd (sampled rx ry))) eqn:Hocc.
  - exact IH.
  - intros H. injection H as <- _. split; [apply sampled_in_grid | exact Hocc].
Qed.

Lemma finds_free_first_free (rs : list Double.random) (s : list Cell) :
  finds_free rs s = true <-> exists c rest, first_free rs s = Some (c, rest).
Proof.
  induction rs as [| rx | rx ry rs IH] using list_pair_ind; cbn [first_free finds_free].
  - split; [discriminate | intros (c & rest & H); discriminate].
  - split; [discriminate | intros (c & rest & H); discriminate].
  - destruct (occupies s (fst (sampled rx ry)) (snd (sampled rx ry))); cbn [negb orb].
    + exact IH.
    + split; [intros _; eauto | reflexivity].
Qed.

Lemma randomEmptyPosition_loop_spec (fuel : nat) (w : World) :
  (List.length (randoms (host w)) < fuel)%nat ->
  randomEmptyPosition_loop fuel w =
  match first_free (randoms (host w)) (snake (vars w)) with
  | Some (cell, rest) => Returns cell (on_host (set_randoms rest) w)
  | None => Unfinished (on_host (set_randoms []) w)
  end.
Proof.
  revert w. induction fuel as [|fuel IH]; intros w Hlen; [inversion Hlen|].
  cbn [randomEmptyPosition_loop]. unfold bind, Math_random, read, ret. cbn beta.
  destruct (randoms (host w)) as [|rx [|ry rest]] eqn:Hrs; js_simpl.
  - cbn [first_free]. f_equal. rewrite <- Hrs. symmetry. apply on_host_randoms_id.
  - reflexivity.
  - cbn [first_free]. fold (sampled rx ry).
    change (Int (Double.random_index rx BOARD_WIDTH)) with (fst (sampled rx ry)).
    change (Int (Double.random_index ry BOARD_HEIGHT)) with (snd (sampled rx ry)).
    destruct (occupies (snake (vars w)) (fst (sampled rx ry)) (snd (sampled rx ry))).
    + rewrite IH by (js_simpl; cbn [List.length] in Hlen; lia).
      js_simpl. destruct (first_free rest (snake (vars w))) as [[cell rest']|]; reflexivity.
    + destruct (sampled rx ry); reflexivity.
Qed.

Lemma randomEmptyPosition_spec (w : World) :
  randomEmptyPosition w =
  match first_free (randoms (host w)) (snake (vars w)) with
  | Some (cell, rest) => Returns cell (on_host (set_randoms rest) w)
  | None => Unfinished (on_host (set_randoms []) w)
  end.
Proof.
  unfold randomEmptyPosition. apply randomEmptyPosition_loop_spec. lia.
Qed.

(** ** [playBeep] *)

Lemma playBeep_returns (w : World) :
  exists ctx log,
    playBeep w = Returns tt (mkWorld (set_audioCtx ctx (vars w)) (set_audio_log log (host w))).
Proof.
  destruct w as [g h]. destruct g as [nm sn dir pend fd run sc iid actx].
  destruct h as [nv ss gc sb al tm nt fr rs af lg].
  unfold playBeep, try_catch, bind, audio, read, assign, ret. js_simpl.
  destruct actx; js_simpl;
    repeat match goal with
    | |- context [af ?c] => destruct (af c); js_simpl
    end;
    eexists; eexists; reflexivity.
Qed.

(** ** The feeding path of [tick], and [startGame] *)

Lemma tick_feed (w : World) (head : Cell) (rest : list Cell) :
  running (vars w) = true ->
  snake (vars w) = head :: rest ->
  let c := newHead head (heading (vars w)) in
  occupies (head :: rest) (fst c) (snd c) = false ->
  on_food (food (vars w)) c = true ->
  exists ctx log,
    let g1 := set_audioCtx ctx
                (set_score (score (vars w) + 1)
                   (set_snake (c :: head :: rest) (turn (vars w)))) in
    let h1 := set_audio_log log (host w) in
    tick w =
    match first_free (randoms (host w)) (c :: head :: rest) with
    | Some (cell, rs') =>
        Returns tt
          (mkWorld (set_food (Some cell) g1)
             (set_scoreboard (Some (playerName (vars w), score (vars w) + 1))
                (set_randoms rs' h1)))
    | None => Unfinished (mkWorld g1 (set_randoms [] h1))
    end.
Proof.
  intros Hr Hs c Hfree Hfood.
  destruct (playBeep_returns
              (mkWorld (set_score (score (vars w) + 1)
                          (set_snake (c :: head :: rest) (turn (vars w))))
                 (host w))) as (ctx & log & Hb).
  exists ctx, log. cbv zeta.
  unfold tick. js_simpl. rewrite Hr. js_simpl.
  unfold heading in c. unfold turn in *.
  destruct (pendingDirection (vars w)) as [d|] eqn:Hp; js_simpl; rewrite Hs; js_simpl;
    fold c; rewrite Hfree; js_simpl; rewrite Hfood; js_simpl;
    unfold bind, assign; js_simpl;
    match type of Hb with
    | playBeep ?w1 = _ =>
        match goal with |- context [playBeep ?x] => change x with w1 end
    end;
    rewrite Hb; js_simpl;
    rewrite randomEmptyPosition_spec; js_simpl;
    destruct (first_free (randoms (host w)) (c :: head :: rest)) as [[cell rs']|];
    js_simpl; unfold updateScoreboard; js_simpl; reflexivity.
Qed.

Lemma startGame_spec (w : World) :
  let name := entered_name (nameInput_value (host w)) in
  let g0 := set_pendingDirection None
              (set_direction (Vec 1 0)
                 (set_snake start_snake (set_playerName name (vars w)))) in
  let id := next_timer (host w) in
  startGame w =
  match first_free (randoms (host w)) start_snake with
  | Some (cell, rs') =>
      Returns tt
        (mkWorld
           (set_intervalId (Some id)
              (set_running true (set_score 3 (set_food (Some cell) g0))))
           (set_frames (S (frames (host w)))
              (set_next_timer (S id)
                 (set_timers (id :: timers (host w))
                    (set_scoreboard (Some (name, 3)) (set_randoms rs' (host w)))))))
  | None => Unfinished (mkWorld g0 (set_randoms [] (host w)))
  end.
Proof.
  cbv zeta. unfold startGame, bind, assign, read_host. js_simpl.
  rewrite randomEmptyPosition_spec. js_simpl.
  fold start_snake.
  destruct (first_free (randoms (host w)) start_snake) as [[cell rs']|]; js_simpl.
  - unfold updateScoreboard, setInterval, requestAnimationFrame. js_simpl. reflexivity.
  - reflexivity.
Qed.

(** ** Food and length *)

Lemma on_food_spec (f : option Cell) (c : Cell) :
  on_food f c = true <-> f = Some c /\ integral c.
Proof.
  destruct f as [[fx fy]|]; destruct c as [x y]; cbn [on_food fst snd].
  - rewrite andb_true_iff, !strict_equal_eq. split.
    + intros [(a & -> & ->) (b & -> & ->)]. split; [reflexivity | now exists a, b].
    + intros (H & a & b & Hc). injection H as -> ->. injection Hc as -> ->.
      split; eauto.
  - split; [discriminate | intros [H _]; discriminate H].
Qed.

Lemma on_food_false (f : option Cell) (c : Cell) :
  f <> Some c -> on_food f c = false.
Proof.
  intros Hne. destruct (on_food f c) eqn:Hon; [|reflexivity].
  apply on_food_spec in Hon as [Hf _]. contradiction.
Qed.

Lemma on_food_integral (f : option Cell) (c : Cell) :
  integral c -> on_food f c = false <-> f <> Some c.
Proof.
  intros Hc. split; [|apply on_food_false].
  intros Hoff Hf.
  assert (H : on_food f c = true) by now apply on_food_spec.
  congruence.
Qed.

Lemma removelast_length {A : Type} (x : A) (l : list A) :
  List.length (removelast (x :: l)) = List.length l.
Proof.
  revert x; induction l as [|y l IH]; intros x; [reflexivity|].
  change (removelast (x :: y :: l)) with (x :: removelast (y :: l)).
  cbn [List.length]. now rewrite IH.
Qed.


(** ** Every cell can be sampled *)

Lemma random_at_width (k : Z) :
  0 <= k < BOARD_WIDTH -> Double.random_index (random_at k BOARD_WIDTH) BOARD_WIDTH = k.
Proof.
  intros Hk.
  assert (Hall : forallb (fun k => Double.random_index (random_at k BOARD_WIDTH) BOARD_WIDTH =? k)
                   columns = true) by (vm_compute; reflexivity).
  rewrite forallb_forall in Hall. apply Z.eqb_eq, Hall.
  apply range_covers. exact Hk.
Qed.

Lemma random_at_height (k : Z) :
  0 <= k < BOARD_HEIGHT -> Double.random_index (random_at k BOARD_HEIGHT) BOARD_HEIGHT = k.
Proof.
  intros Hk.
  assert (Hall : forallb (fun k => Double.random_index (random_at k BOARD_HEIGHT) BOARD_HEIGHT =? k)
                   rows = true) by (vm_compute; reflexivity).
  rewrite forallb_forall in Hall. apply Z.eqb_eq, Hall.
  apply range_covers. exact Hk.
Qed.

Lemma sampled_onto (x y : Z) :
  in_grid (xy x y) ->
  sampled (random_at x BOARD_WIDTH) (random_at y BOARD_HEIGHT) = xy x y.
Proof.
  intros Hc. apply in_grid_xy in Hc as [Hx Hy].
  unfold sampled. now rewrite random_at_width, random_at_height.
Qed.

Lemma finds_free_cons2 (rx ry : Double.random) (rs : list Double.random) (s : list Cell) :
  finds_free rs s = true -> finds_free (rx :: ry :: rs) s = true.
Proof. intros H. cbn [finds_free]. rewrite H. apply orb_true_r. Qed.

(** While some cell of the grid is off [s], any values drawn so far can be
    followed by values with which the sampling loop finds a free cell. *)
Lemma finds_free_extend (s : list Cell) (c : Cell) (rs : list Double.random) :
  in_grid c -> ~ In c s ->
  exists more, finds_free (rs ++ more) s = true.
Proof.
  intros Hgrid Hoff.
  pose proof Hgrid as (x & y & -> & _).
  set (rx := random_at x BOARD_WIDTH).
  set (ry := random_at y BOARD_HEIGHT).
  assert (Hhit : forall rest, finds_free (rx :: ry :: rest) s = true).
  { intros rest. cbn [finds_free]. unfold rx, ry.
    rewrite (sampled_onto x y Hgrid).
    apply occupies_off in Hoff. now rewrite Hoff. }
  induction rs as [| r | r1 r2 rs [more IH]] using list_pair_ind.
  - exists [rx; ry]. apply Hhit.
  - exists [rx; rx; ry]. cbn [app]. apply finds_free_cons2. apply Hhit.
  - exists more. cbn [app]. apply finds_free_cons2. exact IH.
Qed.

(** ** The handlers, outcome by outcome *)

Lemma turn_playerName (g : Vars) : playerName (turn g) = playerName g.
Proof. unfold turn. destruct (pendingDirection g); reflexivity. Qed.

Lemma turn_snake (g : Vars) : snake (turn g) = snake g.
Proof. unfold turn. destruct (pendingDirection g); reflexivity. Qed.

Lemma turn_food (g : Vars) : food (turn g) = food g.
Proof. unfold turn. destruct (pendingDirection g); reflexivity. Qed.

Lemma turn_running (g : Vars) : running (turn g) = running g.
Proof. unfold turn. destruct (pendingDirection g); reflexivity. Qed.

Lemma turn_score (g : Vars) : score (turn g) = score g.
Proof. unfold turn. destruct (pendingDirection g); reflexivity. Qed.

Lemma turn_intervalId (g : Vars) : intervalId (turn g) = intervalId g.
Proof. unfold turn. destruct (pendingDirection g); reflexivity. Qed.

Lemma turn_audioCtx (g : Vars) : audioCtx (turn g) = audioCtx g.
Proof. unfold turn. destruct (pendingDirection g); reflexivity. Qed.

Lemma turn_direction (g : Vars) : direction (turn g) = heading g.
Proof. unfold turn, heading. destruct (pendingDirection g); reflexivity. Qed.

Lemma turn_pendingDirection (g : Vars) : pendingDirection (turn g) = None.
Proof.
  unfold turn. destruct (pendingDirection g) eqn:Hp; [reflexivity | exact Hp].
Qed.

Ltac turn_simpl :=
  rewrite ?turn_playerName, ?turn_snake, ?turn_food, ?turn_running, ?turn_score,
    ?turn_intervalId, ?turn_audioCtx, ?turn_direction, ?turn_pendingDirection.

(** The three ways a tick of a running game goes on a snake that is not
    empty: into the snake, onto a plain cell, onto the food. *)
Lemma tick_running (w : World) (head : Cell) (rest : list Cell) :
  running (vars w) = true ->
  snake (vars w) = head :: rest ->
  let c := newHead head (heading (vars w)) in
  ((In c (head :: rest) /\ integral c) /\
   tick w =
   Returns tt
     (mkWorld (set_running false (turn (vars w)))
        (set_startScreen_hidden false
           (set_gameContainer_hidden true
              (set_alerts ((playerName (vars w), score (vars w)) :: alerts (host w))
                 (stop_timer (intervalId (vars w)) (host w))))))) \/
  (occupies (head :: rest) (fst c) (snd c) = false /\
   on_food (food (vars w)) c = false /\
   tick w =
   Returns tt
     (mkWorld (set_snake (c :: removelast (head :: rest)) (turn (vars w)))
        (set_scoreboard (Some (playerName (vars w), score (vars w))) (host w)))) \/
  ((~ In c (head :: rest) /\ integral c) /\ food (vars w) = Some c /\
   exists ctx log,
     let g1 := set_audioCtx ctx
                 (set_score (score (vars w) + 1)
                    (set_snake (c :: head :: rest) (turn (vars w)))) in
     let h1 := set_audio_log log (host w) in
     tick w =
     match first_free (randoms (host w)) (c :: head :: rest) with
     | Some (cell, rs') =>
         Returns tt
           (mkWorld (set_food (Some cell) g1)
              (set_scoreboard (Some (playerName (vars w), score (vars w) + 1))
                 (set_randoms rs' h1)))
     | None => Unfinished (mkWorld g1 (set_randoms [] h1))
     end).
Proof.
  intros Hr Hs c.
  destruct (occupies (head :: rest) (fst c) (snd c)) eqn:Hocc.
  { left. split; [now apply occupies_In_integral|].
    rewrite (tick_collision w head rest Hr Hs Hocc), endGame_returns. js_simpl.
    now rewrite turn_playerName, turn_score, turn_intervalId. }
  right.
  destruct (on_food (food (vars w)) c) eqn:Hon.
  - right. pose proof Hon as Hfood. apply on_food_spec in Hfood as [Hfood Hint].
    split; [|split; [exact Hfood|]].
    + split; [now apply occupies_false_In | exact Hint].
    + exact (tick_feed w head rest Hr Hs Hocc Hon).
  - left. split; [reflexivity|]. split; [reflexivity|].
    exact (tick_move w head rest Hr Hs Hocc Hon).
Qed.

(** A click on the start button. *)
Lemma start_click_spec (w : World) :
  let name := entered_name (nameInput_value (host w)) in
  let g0 := set_pendingDirection None
              (set_direction (Vec 1 0)
                 (set_snake start_snake (set_playerName name (vars w)))) in
  let id := next_timer (host w) in
  let h0 := set_gameContainer_hidden false (set_startScreen_hidden true (host w)) in
  handler StartClick w =
  match first_free (randoms (host w)) start_snake with
  | Some (cell, rs') =>
      Returns tt
        (mkWorld
           (set_intervalId (Some id)
              (set_running true (set_score 3 (set_food (Some cell) g0))))
           (set_frames (S (frames (host w)))
              (set_next_timer (S id)
                 (set_timers (id :: timers (host w))
                    (set_scoreboard (Some (name, 3)) (set_randoms rs' h0))))))
  | None => Unfinished (mkWorld g0 (set_randoms [] h0))
  end.
Proof.
  cbv zeta. cbn [handler].
  change ((effect (set_startScreen_hidden true) ;;
            effect (set_gameContainer_hidden false) ;; startGame) w)
    with (startGame (on_host (set_gameContainer_hidden false)
                       (on_host (set_startScreen_hidden true) w))).
  rewrite startGame_spec. cbv zeta. js_simpl. reflexivity.
Qed.

(** A frame callback: the request is used up, and [draw] makes the next one
    while the game runs. *)
Lemma frame_spec (w : World) :
  handler AnimationFrame w =
  Returns tt
    (on_host (fun h => set_frames (if running (vars w)
                                   then S (Nat.pred (frames h))
                                   else Nat.pred (frames h)) h) w).
Proof.
  cbn [handler]. unfold draw, requestAnimationFrame. js_simpl.
  destruct (running (vars w)); js_simpl; reflexivity.
Qed.

Lemma cell_eqb_eq (a b : Cell) :
  cell_eqb a b = true <-> a = b /\ integral a.
Proof.
  destruct a as [ax ay], b as [bx by']. unfold cell_eqb. cbn [fst snd].
  rewrite andb_true_iff, !strict_equal_eq. split.
  - intros [(x & -> & ->) (y & -> & ->)]. split; [reflexivity | now exists x, y].
  - intros (H & x & y & Ha). injection H as <- <-. injection Ha as -> ->.
    split; eauto.
Qed.

Lemma cell_eqb_neq (a b : Cell) : cell_eqb a b = false -> a <> b \/ ~ integral a.
Proof.
  intros Hne.
  destruct (cell_eqb a b) eqn:Heq; [discriminate Hne|].
  assert (H : ~ (a = b /\ integral a)).
  { intros H. apply cell_eqb_eq in H. congruence. }
  destruct a as [[x|] [y|]].
  - left. intros Hab. apply H. split; [exact Hab | now exists x, y].
  - right. intros (a & b' & Hc). discriminate Hc.
  - right. intros (a & b' & Hc). discriminate Hc.
  - right. intros (a & b' & Hc). discriminate Hc.
Qed.

(** The test of [handleKeyDown] holds for two vectors when the one is the
    other negated, and for nothing else. *)
Lemma reverses_opposite (newDir d : Value) :
  reverses newDir d = true <->
  exists dx dy, d = Vec dx dy /\ newDir = Vec (- dx) (- dy).
Proof.
  unfold reverses.
  destruct newDir as [nx ny|m], d as [dx dy|m']; cbn.
  - rewrite andb_true_iff, !Z.eqb_eq. split.
    + intros [-> ->]. now exists dx, dy.
    + intros (a & b & H1 & H2). injection H1 as <- <-. injection H2 as -> ->.
      split; reflexivity.
  - split; [discriminate | intros (a & b & H & _); discriminate H].
  - split; [discriminate | intros (a & b & _ & H); discriminate H].
  - split; [discriminate | intros (a & b & H & _); discriminate H].
Qed.

(** A key press changes nothing, or leaves pending what the map holds for
    the key. *)
Lemma handleKeyDown_steers (e_key : string) (w : World) :
  handleKeyDown e_key w =
  Returns tt
    (on_vars (set_pendingDirection
                (steer (direction (vars w)) (pendingDirection (vars w)) e_key)) w).
Proof.
  assert (Hid : on_vars (set_pendingDirection (pendingDirection (vars w))) w = w).
  { destruct w as [g h]. destruct g. reflexivity. }
  unfold handleKeyDown, steer, reverses.
  destruct (map (toLowerCase e_key)) as [newDir|]; js_simpl; [|now rewrite Hid].
  destruct (slot_equal (at_index 0 newDir)
              (negate (to_number (at_index 0 (direction (vars w))))));
    destruct (slot_equal (at_index 1 newDir)
                (negate (to_number (at_index 1 (direction (vars w))))));
    cbn [negb orb andb]; js_simpl; rewrite ?Hid; reflexivity.
Qed.

Lemma steer_cases (d : Value) (pending : option Value) (e_key : string) :
  steer d pending e_key = pending \/
  exists newDir,
    steer d pending e_key = Some newDir /\
    map (toLowerCase e_key) = Some newDir /\ reverses newDir d = false.
Proof.
  unfold steer. destruct (map (toLowerCase e_key)) as [newDir|]; [|now left].
  destruct (reverses newDir d) eqn:Heq; [now left|].
  right. exists newDir. split; [reflexivity|]. split; [reflexivity | exact Heq].
Qed.
(** ** Ticks, score and length *)

Lemma turn_game (g : Vars) :
  snake (turn g) = snake g /\ score (turn g) = score g /\ running (turn g) = running g.
Proof. unfold turn. destruct (pendingDirection g); repeat split. Qed.

(** Every tick that returns has raised score and length together by one, or
    has changed neither. *)
Lemma tick_score_length (w w' : World) :
  tick w = Returns tt w' ->
  (score (vars w') = score (vars w) + 1 /\
   List.length (snake (vars w')) = S (List.length (snake (vars w)))) \/
  (score (vars w') = score (vars w) /\
   List.length (snake (vars w')) = List.length (snake (vars w))).
Proof.
  intros Ht.
  destruct (turn_game (vars w)) as (Htsn & Htsc & _).
  destruct (running (vars w)) eqn:Hr.
  2: { rewrite (tick_idle w Hr) in Ht. injection Ht as <-. right. split; reflexivity. }
  destruct (snake (vars w)) as [|head rest] eqn:Hs.
  { rewrite (tick_empty w Hr Hs) in Ht. discriminate Ht. }
  set (c := newHead head (heading (vars w))) in *.
  destruct (occupies (head :: rest) (fst c) (snd c)) eqn:Hocc.
  { rewrite (tick_collision w head rest Hr Hs Hocc), endGame_returns in Ht.
    injection Ht as <-. right. js_simpl. rewrite ?Htsn, ?Htsc, ?Hs. split; reflexivity. }
  destruct (on_food (food (vars w)) c) eqn:Hfood.
  - destruct (tick_feed w head rest Hr Hs Hocc Hfood) as (ctx & log & Heq).
    cbv zeta in Heq. rewrite Heq in Ht.
    match type of Ht with
    | context [first_free ?rs ?s] => destruct (first_free rs s) as [[cell rs']|]
    end; [|discriminate Ht].
    injection Ht as <-. left. js_simpl. rewrite ?Htsc. split; reflexivity.
  - rewrite (tick_move w head rest Hr Hs Hocc Hfood) in Ht.
    injection Ht as <-. right. js_simpl. rewrite ?Htsc.
    split; [reflexivity|].
    change (match rest with [] => [] | _ :: _ => head :: removelast rest end)
      with (removelast (head :: rest)).
    cbn [List.length]. now rewrite removelast_length.
Qed.


(** ** What the map holds, and where a step leads *)

Lemma map_steerable (key : string) (d : Value) :
  map key = Some d -> steerable d.
Proof.
  unfold map, steerable, is_direction.
  repeat match goal with
         | |- context [if ?b then _ else _] => destruct b
         end; intros H; try discriminate H; injection H as <-; eauto 6.
Qed.

Lemma map_is_direction (key : string) (dx dy : Z) :
  map key = Some (Vec dx dy) -> is_direction (Vec dx dy).
Proof.
  intros H. destruct (map_steerable key (Vec dx dy) H) as [Hd|[m Hm]];
    [exact Hd | discriminate Hm].
Qed.

Lemma newHead_in_grid (head : Cell) (d : Value) :
  in_grid head -> is_direction d -> in_grid (newHead head d).
Proof.
  intros (x & y & -> & Hx & Hy) Hd.
  unfold newHead, BOARD_WIDTH, BOARD_HEIGHT in *. cbn [fst snd].
  destruct Hd as [ -> | [ -> | [ -> | -> ] ] ];
    cbn [at_index to_number add remainder Z.eqb];
    apply in_grid_xy; unfold BOARD_WIDTH, BOARD_HEIGHT;
    rewrite !Z.rem_mod_nonneg by lia;
    split; apply Z.mod_pos_bound; lia.
Qed.

(** With an inherited member for a direction, and from a head of [NaN], the
    step leads to [[NaN, NaN]]. *)
Lemma newHead_member (head : Cell) (m : Inherited) :
  newHead head (Member m) = xy NaN NaN.
Proof. destruct head as [[x|] [y|]]; reflexivity. Qed.

Lemma newHead_lost (d : Value) : newHead (xy NaN NaN) d = xy NaN NaN.
Proof. reflexivity. Qed.

Lemma lost_not_integral : ~ integral (xy NaN NaN).
Proof. intros (x & y & H). discriminate H. Qed.

Lemma lost_off (s : list Cell) : occupies s NaN NaN = false.
Proof.
  destruct (occupies s NaN NaN) eqn:Hocc; [|reflexivity].
  apply occupies_iff in Hocc as (a & b & H & _). discriminate H.
Qed.

Lemma removelast_In {A : Type} (x : A) (l : list A) :
  In x (removelast l) -> In x l.
Proof.
  induction l as [|a l IH]; [intros []|].
  destruct l as [|b l]; [intros []|].
  change (removelast (a :: b :: l)) with (a :: removelast (b :: l)).
  intros [Heq|H]; [now left | right; now apply IH].
Qed.

Lemma removelast_NoDup {A : Type} (l : list A) :
  NoDup l -> NoDup (removelast l).
Proof.
  induction l as [|a l IH]; intros H; [constructor|].
  destruct l as [|b l]; [constructor|].
  change (removelast (a :: b :: l)) with (a :: removelast (b :: l)).
  inversion H as [|? ? Hnot Hrest]; subst. constructor.
  - intros Hin. apply Hnot. now apply removelast_In in Hin.
  - now apply IH.
Qed.

Lemma removelast_Forall {A : Type} (P : A -> Prop) (l : list A) :
  Forall P l -> Forall P (removelast l).
Proof.
  intros H. apply Forall_forall. intros x Hx.
  apply removelast_In in Hx. revert x Hx. now apply Forall_forall.
Qed.

Lemma heading_steerable (g : Vars) :
  steerable (direction g) ->
  (forall d, pendingDirection g = Some d -> steerable d) ->
  steerable (heading g).
Proof.
  intros Hd Hp. unfold heading.
  destruct (pendingDirection g) as [d|] eqn:Hpd; [now apply Hp | exact Hd].
Qed.

(** [tick] throws only when it is called with an empty snake in a running
    game. *)
Lemma tick_throws (w w' : World) (err : Error) :
  tick w = Throws err w' ->
  running (vars w) = true /\ snake (vars w) = [] /\
  err = TypeError /\ vars w' = turn (vars w).
Proof.
  intros Ht.
  destruct (running (vars w)) eqn:Hr.
  2: { rewrite (tick_idle w Hr) in Ht. discriminate Ht. }
  destruct (snake (vars w)) as [|head rest] eqn:Hs.
  { rewrite (tick_empty w Hr Hs) in Ht. injection Ht as <- <-. repeat split. }
  exfalso.
  set (c := newHead head (heading (vars w))) in *.
  destruct (occupies (head :: rest) (fst c) (snd c)) eqn:Hocc.
  { rewrite (tick_collision w head rest Hr Hs Hocc), endGame_returns in Ht.
    discriminate Ht. }
  destruct (on_food (food (vars w)) c) eqn:Hfood.
  - destruct (tick_feed w head rest Hr Hs Hocc Hfood) as (ctx & log & Heq).
    cbv zeta in Heq. rewrite Heq in Ht.
    match type of Ht with
    | context [first_free ?rs ?s] => destruct (first_free rs s) as [[cell rs']|]
    end; discriminate Ht.
  - rewrite (tick_move w head rest Hr Hs Hocc Hfood) in Ht. discriminate Ht.
Qed.

(** ** The grid *)

Lemma grid_cells_cover (c : Cell) : in_grid c -> In c grid_cells.
Proof.
  intros (x & y & -> & Hx & Hy). unfold grid_cells.
  apply (in_map (fun p : Z * Z => xy (fst p) (snd p)) _ (x, y)).
  apply in_prod; apply range_covers; assumption.
Qed.

Lemma grid_cells_length : List.length grid_cells = 1200%nat.
Proof. vm_compute. reflexivity. Qed.

Lemma snake_fits_the_grid (s : list Cell) :
  NoDup s -> Forall in_grid s -> (List.length s <= 1200)%nat.
Proof.
  intros Hnd Hgrid. rewrite <- grid_cells_length.
  apply NoDup_incl_length; [exact Hnd|].
  intros c Hc. apply grid_cells_cover.
  rewrite Forall_forall in Hgrid. now apply Hgrid.
Qed.

Lemma start_snake_well_formed :
  NoDup start_snake /\ Forall in_grid start_snake.
Proof.
  split.
  - repeat constructor; cbn; intuition discriminate.
  - repeat constructor; apply in_grid_xy; unfold BOARD_WIDTH, BOARD_HEIGHT; cbn; lia.
Qed.

(** ** What every reachable state satisfies *)

Lemma tick_keeps_sound (w w' : World) :
  sound (vars w) -> tick w = Returns tt w' -> sound (vars w').
Proof.
  intros Hsound Ht. pose proof Hsound as (Hdir & Hpend & Hrun).
  pose proof (heading_steerable (vars w) Hdir Hpend) as Hhead.
  destruct (running (vars w)) eqn:Hr.
  2: { rewrite (tick_idle w Hr) in Ht. injection Ht as <-. exact Hsound. }
  destruct (Hrun eq_refl) as (Hsc & Hlen & Hshape & Hfood).
  destruct (snake (vars w)) as [|head rest] eqn:Hs.
  { rewrite (tick_empty w Hr Hs) in Ht. discriminate Ht. }
  destruct (tick_running w head rest Hr Hs)
    as [(_ & Heq) | [(Hocc & Hon & Heq) | ((Hoff & Hint) & Hf & ctx & log & Heq)]];
    cbv zeta in Heq; rewrite Heq in Ht; clear Heq;
    set (c := newHead head (heading (vars w))) in *.
  - injection Ht as <-. unfold sound. js_simpl. turn_simpl.
    split; [exact Hhead|]. split; discriminate.
  - injection Ht as <-. unfold sound. js_simpl. turn_simpl.
    change (match rest with [] => [] | _ :: _ => head :: removelast rest end)
      with (removelast (head :: rest)).
    split; [exact Hhead|]. split; [discriminate|]. intros _.
    cbn [List.length] in *. rewrite removelast_length.
    split; [exact Hsc|]. split; [exact Hlen|]. split.
    + destruct Hshape as [[Hnd Hgrid] | [tail Hlost]].
      * destruct Hhead as [Hd | [m Hm]].
        -- left. assert (Hc : in_grid c).
           { apply newHead_in_grid; [now inversion Hgrid | exact Hd]. }
           split.
           ++ constructor; [|now apply removelast_NoDup].
              intros Hin. apply removelast_In in Hin.
              apply (occupies_false_In (head :: rest) c (in_grid_integral c Hc));
                assumption.
           ++ constructor; [exact Hc | now apply removelast_Forall].
        -- right. exists (removelast (head :: rest)). unfold c.
           rewrite Hm. apply f_equal2; [apply newHead_member | reflexivity].
      * right. exists (removelast (head :: rest)). unfold c.
        injection Hlost as -> _. reflexivity.
    + intros f Hf. destruct (Hfood f Hf) as [Hfg Hfoff].
      split; [exact Hfg|].
      intros [Heq|Hin].
      * assert (Htrue : on_food (food (vars w)) c = true).
        { apply on_food_spec. rewrite Hf, Heq. split; [reflexivity|].
          now apply in_grid_integral. }
        congruence.
      * apply Hfoff. now apply removelast_In.
  - destruct (first_free (randoms (host w)) (c :: head :: rest)) as [[spot rs']|] eqn:Hff;
      [|discriminate Ht].
    injection Ht as <-. unfold sound. js_simpl. turn_simpl.
    apply first_free_sound in Hff as [Hspot Hfree].
    destruct (Hfood c Hf) as [Hc _].
    assert (Hgrown : NoDup (c :: head :: rest) /\ Forall in_grid (c :: head :: rest)).
    { destruct Hshape as [[Hnd Hgrid] | [tail Hlost]].
      - split; now constructor.
      - exfalso. injection Hlost as -> _. apply lost_not_integral.
        exact Hint. }
    split; [exact Hhead|]. split; [discriminate|]. intros _.
    cbn [List.length] in *.
    split; [lia|]. split.
    { split; [lia|]. exact (snake_fits_the_grid _ (proj1 Hgrown) (proj2 Hgrown)). }
    split; [left; exact Hgrown|].
    intros f Hf'. injection Hf' as <-. split; [exact Hspot|].
    now apply (occupies_false_In _ spot (in_grid_integral spot Hspot)).
Qed.

Lemma handler_keeps_sound (e : Event) (w w' : World) :
  sound (vars w) -> handler e w = Returns tt w' -> sound (vars w').
Proof.
  intros Hsound Hh. destruct e as [|e_key| |].
  - rewrite start_click_spec in Hh. cbv zeta in Hh.
    destruct (first_free (randoms (host w)) start_snake) as [[spot rs']|] eqn:Hff;
      [|discriminate Hh].
    injection Hh as <-. unfold sound. js_simpl.
    apply first_free_sound in Hff as [Hspot Hfree].
    split; [left; right; right; right; reflexivity|]. split; [discriminate|].
    intros _. split; [reflexivity|]. split; [cbn; lia|].
    split; [left; exact start_snake_well_formed|].
    intros f Hf. injection Hf as <-. split; [exact Hspot|].
    now apply (occupies_false_In _ spot (in_grid_integral spot Hspot)).
  - cbn [handler] in Hh. rewrite handleKeyDown_steers in Hh. injection Hh as <-.
    destruct Hsound as (Hdir & Hpend & Hrun). unfold sound. js_simpl.
    split; [exact Hdir|]. split; [|exact Hrun].
    intros d Hd.
    destruct (steer_cases (direction (vars w)) (pendingDirection (vars w)) e_key)
      as [Hsame | (newDir & Hnew & Hmap & _)].
    + rewrite Hsame in Hd. now apply Hpend.
    + rewrite Hnew in Hd. injection Hd as <-.
      exact (map_steerable _ _ Hmap).
  - now apply (tick_keeps_sound w w').
  - rewrite frame_spec in Hh. injection Hh as <-. exact Hsound.
Qed.

(** In a sound state no handler throws. *)
Lemma handler_no_throw (e : Event) (w w' : World) (err : Error) :
  sound (vars w) -> handler e w <> Throws err w'.
Proof.
  intros Hs Hh. destruct e as [|e_key| |].
  - rewrite start_click_spec in Hh. cbv zeta in Hh.
    destruct (first_free (randoms (host w)) start_snake) as [[spot rs']|];
      discriminate Hh.
  - cbn [handler] in Hh. rewrite handleKeyDown_steers in Hh. discriminate Hh.
  - cbn [handler] in Hh. apply tick_throws in Hh as (Hr & Hsn & _).
    destruct Hs as (_ & _ & Hrun). destruct (Hrun Hr) as (_ & [Hlen _] & _).
    rewrite Hsn in Hlen. cbn in Hlen. lia.
  - rewrite frame_spec in Hh. discriminate Hh.
Qed.

Lemma reachable_sound (w : World) : reachable w -> sound (vars w).
Proof.
  induction 1 as [h _ _ | w name rs fault _ IH | w e w' _ IH _ Hh | w e err w' _ IH _ Hh].
  - split; [left; right; right; right; reflexivity|]. split; discriminate.
  - exact IH.
  - exact (handler_keeps_sound e w w' IH Hh).
  - exfalso. exact (handler_no_throw e w w' err IH Hh).
Qed.

(** An invariant, if it holds when the page has loaded and is kept by the
    browser's input and by every handler that returns, holds in every state
    the page can reach. *)
Lemma reachable_invariant (P : World -> Prop) :
  (forall h, timers h = [] -> frames h = O -> P (mkWorld initial_vars h)) ->
  (forall w name rs fault, P w -> P (on_host (supply name rs fault) w)) ->
  (forall w e w',
     reachable w -> P w -> enabled e w = true -> handler e w = Returns tt w' -> P w') ->
  forall w, reachable w -> P w.
Proof.
  intros Hload Hsupply Hstep.
  induction 1 as [h Ht Hf | w name rs fault _ IH | w e w' Hw IH Hen Hh
                  | w e err w' Hw IH _ Hh].
  - now apply Hload.
  - now apply Hsupply.
  - now apply (Hstep w e w').
  - exfalso. exact (handler_no_throw e w w' err (reachable_sound w Hw) Hh).
Qed.

(** ** The data model, while no inherited key is pressed *)

Lemma well_formed_sound (g : Vars) : well_formed g -> sound g.
Proof.
  intros (Hdir & Hpend & Hrun).
  split; [now left|]. split; [intros d Hd; left; now apply Hpend|].
  intros Hr. destruct (Hrun Hr) as (Hsc & Hlen & Hnd & Hgrid & Hfood).
  split; [exact Hsc|]. split.
  { split; [exact Hlen | exact (snake_fits_the_grid _ Hnd Hgrid)]. }
  split; [left; split; assumption | exact Hfood].
Qed.

Lemma heading_is_direction (g : Vars) : well_formed g -> is_direction (heading g).
Proof.
  intros (Hdir & Hpend & _). unfold heading.
  destruct (pendingDirection g) as [d|] eqn:Hp; [now apply Hpend | exact Hdir].
Qed.

Lemma tick_keeps_well_formed (w w' : World) :
  well_formed (vars w) -> tick w = Returns tt w' -> well_formed (vars w').
Proof.
  intros Hwf Ht.
  pose proof (heading_is_direction (vars w) Hwf) as Hhead.
  pose proof (tick_keeps_sound w w' (well_formed_sound (vars w) Hwf) Ht)
    as (_ & _ & Hrun').
  pose proof Hwf as (Hdir & Hpend & Hrun).
  destruct (running (vars w)) eqn:Hr.
  2: { rewrite (tick_idle w Hr) in Ht. injection Ht as <-. exact Hwf. }
  destruct (Hrun eq_refl) as (_ & _ & Hnd & Hgrid & _).
  destruct (snake (vars w)) as [|head rest] eqn:Hs.
  { rewrite (tick_empty w Hr Hs) in Ht. discriminate Ht. }
  assert (Hc : in_grid (newHead head (heading (vars w)))).
  { apply newHead_in_grid; [now inversion Hgrid | exact Hhead]. }
  assert (Hd' : direction (vars w') = heading (vars w) /\
                pendingDirection (vars w') = None /\
                (running (vars w') = true ->
                 exists tail, snake (vars w') = newHead head (heading (vars w)) :: tail)).
  { destruct (tick_running w head rest Hr Hs)
      as [(_ & Heq) | [(_ & _ & Heq) | (_ & _ & ctx & log & Heq)]];
      cbv zeta in Heq; rewrite Heq in Ht; clear Heq.
    - injection Ht as <-. js_simpl. turn_simpl.
      split; [reflexivity|]. split; [reflexivity | discriminate].
    - injection Ht as <-. js_simpl. turn_simpl.
      split; [reflexivity|]. split; [reflexivity | eauto].
    - destruct (first_free (randoms (host w)) _) as [[spot rs']|]; [|discriminate Ht].
      injection Ht as <-. js_simpl. turn_simpl.
      split; [reflexivity|]. split; [reflexivity | eauto]. }
  destruct Hd' as (Hnewdir & Hnewpend & Hnewhead).
  split; [now rewrite Hnewdir|]. split; [rewrite Hnewpend; discriminate|].
  intros Hr'. destruct (Hrun' Hr') as (Hsc' & [Hlen' _] & Hshape' & Hfood').
  split; [exact Hsc'|]. split; [exact Hlen'|].
  destruct Hshape' as [[Hnd' Hgrid'] | [tail Hlost]].
  - split; [exact Hnd'|]. split; [exact Hgrid' | exact Hfood'].
  - exfalso. destruct (Hnewhead Hr') as [tail' Hsn]. rewrite Hsn in Hlost.
    assert (Hl : newHead head (heading (vars w)) = xy NaN NaN) by congruence.
    rewrite Hl in Hc. exact (lost_not_integral (in_grid_integral _ Hc)).
Qed.

Lemma handler_keeps_well_formed (e : Event) (w w' : World) :
  well_formed (vars w) ->
  (forall e_key, e = KeyDown e_key -> inherited_key e_key = false) ->
  handler e w = Returns tt w' ->
  well_formed (vars w').
Proof.
  intros Hwf Hkey Hh.
  pose proof (handler_keeps_sound e w w' (well_formed_sound (vars w) Hwf) Hh)
    as (_ & _ & Hrun').
  destruct e as [|e_key| |].
  - rewrite start_click_spec in Hh. cbv zeta in Hh.
    destruct (first_free (randoms (host w)) start_snake) as [[spot rs']|] eqn:Hff;
      [|discriminate Hh].
    injection Hh as <-. unfold well_formed. js_simpl.
    apply first_free_sound in Hff as [Hspot Hfree].
    destruct start_snake_well_formed as [Hnd Hgrid].
    split; [right; right; right; reflexivity|]. split; [discriminate|].
    intros _. split; [reflexivity|]. split; [cbn; lia|].
    split; [exact Hnd|]. split; [exact Hgrid|].
    intros f Hf. injection Hf as <-. split; [exact Hspot|].
    now apply (occupies_false_In _ spot (in_grid_integral spot Hspot)).
  - cbn [handler] in Hh. rewrite handleKeyDown_steers in Hh. injection Hh as <-.
    destruct Hwf as (Hdir & Hpend & Hrun). unfold well_formed. js_simpl.
    split; [exact Hdir|]. split; [|exact Hrun].
    intros d Hd.
    destruct (steer_cases (direction (vars w)) (pendingDirection (vars w)) e_key)
      as [Hsame | (newDir & Hnew & Hmap & _)].
    + rewrite Hsame in Hd. now apply Hpend.
    + rewrite Hnew in Hd. injection Hd as <-.
      specialize (Hkey e_key eq_refl). unfold inherited_key in Hkey.
      rewrite Hmap in Hkey. destruct newDir as [dx dy|m]; [|discriminate Hkey].
      exact (map_is_direction _ _ _ Hmap).
  - now apply (tick_keeps_well_formed w w').
  - rewrite frame_spec in Hh. injection Hh as <-. exact Hwf.
Qed.

(** ** Lemmas for the claims *)

(** *** Wrap-around *)

Lemma mod_add_bound (a n : Z) :
  0 <= a < n -> (a + 0 + n) mod n = a.
Proof.
  intros Ha. replace (a + 0 + n) with (a + 1 * n) by lia.
  rewrite Z.mod_add by lia. apply Z.mod_small. exact Ha.
Qed.

Lemma rem_add_bound (x d n : Z) :
  0 <= x < n -> -1 <= d <= 1 -> Z.rem (x + d + n) n = (x + d + n) mod n.
Proof. intros Hx Hd. apply Z.rem_mod_nonneg; lia. Qed.

(** *** Feeding, and the full board *)

Lemma spiral_covers (c : Cell) : in_grid c -> In c spiral.
Proof.
  intros Hc.
  assert (Hall : forallb (fun c => occupies spiral (fst c) (snd c)) grid_cells = true)
    by (vm_compute; reflexivity).
  rewrite forallb_forall in Hall.
  specialize (Hall c (grid_cells_cover c Hc)).
  now apply occupies_In_integral in Hall.
Qed.

Lemma first_free_none (rs : list Double.random) (s : list Cell) :
  (forall c, in_grid c -> In c s) -> first_free rs s = None.
Proof.
  intros Hfull.
  induction rs as [| rx | rx ry rs IH] using list_pair_ind; cbn [first_free];
    try reflexivity.
  replace (occupies s (fst (sampled rx ry)) (snd (sampled rx ry))) with true; [exact IH|].
  symmetry. apply occupies_In_integral.
  split; [apply Hfull | apply in_grid_integral]; apply sampled_in_grid.
Qed.

(** What a feeding tick has written when food placement is reached. *)
Lemma tick_feed_outcome (w : World) (head : Cell) (rest : list Cell) :
  running (vars w) = true ->
  snake (vars w) = head :: rest ->
  let c := newHead head (heading (vars w)) in
  ~ In c (head :: rest) ->
  food (vars w) = Some c ->
  integral c ->
  (finds_free (randoms (host w)) (c :: head :: rest) = true /\
   exists w' cell,
     tick w = Returns tt w' /\
     snake (vars w') = c :: head :: rest /\
     score (vars w') = score (vars w) + 1 /\
     food (vars w') = Some cell /\ in_grid cell /\ ~ In cell (c :: head :: rest)) \/
  (finds_free (randoms (host w)) (c :: head :: rest) = false /\
   exists w',
     tick w = Unfinished w' /\
     snake (vars w') = c :: head :: rest /\
     score (vars w') = score (vars w) + 1 /\
     food (vars w') = Some c).
Proof.
  intros Hr Hs c Hfree Hfood Hint.
  apply occupies_off in Hfree.
  assert (Hon : on_food (food (vars w)) c = true) by now apply on_food_spec.
  destruct (tick_feed w head rest Hr Hs Hfree Hon) as (ctx & log & Ht).
  cbv zeta in Ht. fold c in Ht.
  destruct (finds_free (randoms (host w)) (c :: head :: rest)) eqn:Hfind.
  - left. split; [reflexivity|].
    apply finds_free_first_free in Hfind as (cell & rs' & Hff).
    rewrite Hff in Ht. rewrite Ht.
    apply first_free_sound in Hff as [Hgrid Hoff].
    eexists; exists cell. split; [reflexivity|]. js_simpl.
    repeat split; try reflexivity; try apply Hgrid.
    now apply (occupies_false_In _ cell (in_grid_integral cell Hgrid)).
  - right. split; [reflexivity|].
    destruct (first_free (randoms (host w)) (c :: head :: rest)) as [[cell rs']|] eqn:Hff.
    + assert (Habs : finds_free (randoms (host w)) (c :: head :: rest) = true)
        by (apply finds_free_first_free; eauto).
      congruence.
    + rewrite Ht. eexists. split; [reflexivity|]. js_simpl.
      unfold turn. destruct (pendingDirection (vars w)); js_simpl; auto.
Qed.

Lemma play_reachable (script : list Step) (w w' : World) :
  reachable w -> play script w = Some w' -> reachable w'.
Proof.
  revert w. induction script as [|s script IH]; intros w Hw Hplay; cbn [play] in Hplay.
  - injection Hplay as <-. exact Hw.
  - destruct (step s w) as [w1|] eqn:Hstep; [|discriminate Hplay].
    apply (IH w1); [|exact Hplay].
    destruct s as [name rs fault|e]; cbn [step] in Hstep.
    + injection Hstep as <-. now apply reach_supply.
    + destruct (enabled e w) eqn:Hen; [|discriminate Hstep].
      destruct (handler e w) as [[] w2|err w2|w2] eqn:Hh; [| |discriminate Hstep];
        injection Hstep as <-.
      * now apply (reach_return w e w2).
      * now apply (reach_throw w e err w2).
Qed.

Lemma full_game_plays : play full_game loaded = Some crowded.
Proof. vm_compute. reflexivity. Qed.

Lemma crowded_reachable : reachable crowded.
Proof.
  apply (play_reachable full_game loaded crowded); [|exact full_game_plays].
  apply reach_load; reflexivity.
Qed.

Lemma crowded_snake_head :
  rev (firstn 1199 spiral) = xy 27 14 :: tl (rev (firstn 1199 spiral)).
Proof. vm_compute. reflexivity. Qed.

Lemma crowded_snake_grown :
  xy 28 14 :: xy 27 14 :: tl (rev (firstn 1199 spiral)) = rev spiral.
Proof. vm_compute. reflexivity. Qed.

(** *** Audio and the rest of the state *)

Lemma tick_mute (w : World) (fault : AudioCall -> bool) :
  outcome_map mute (tick (with_audio_fault fault w)) = outcome_map mute (tick w).
Proof.
  set (w' := with_audio_fault fault w).
  destruct (running (vars w)) eqn:Hr.
  2: { rewrite (tick_idle w Hr), (tick_idle w' Hr). reflexivity. }
  destruct (snake (vars w)) as [|head rest] eqn:Hs.
  { rewrite (tick_empty w Hr Hs), (tick_empty w' Hr Hs). reflexivity. }
  set (c := newHead head (heading (vars w))).
  destruct (occupies (head :: rest) (fst c) (snd c)) eqn:Hocc.
  { rewrite (tick_collision w head rest Hr Hs Hocc),
      (tick_collision w' head rest Hr Hs Hocc), !endGame_returns. reflexivity. }
  destruct (on_food (food (vars w)) c) eqn:Hfood.
  - destruct (tick_feed w head rest Hr Hs Hocc Hfood) as (ctx & log & Ht).
    destruct (tick_feed w' head rest Hr Hs Hocc Hfood) as (ctx' & log' & Ht').
    cbv zeta in Ht, Ht'. rewrite Ht, Ht'.
    change (randoms (host w')) with (randoms (host w)).
    change (heading (vars w')) with (heading (vars w)).
    destruct (first_free (randoms (host w)) (newHead head (heading (vars w)) :: head :: rest))
      as [[cell rs']|]; reflexivity.
  - rewrite (tick_move w head rest Hr Hs Hocc Hfood),
      (tick_move w' head rest Hr Hs Hocc Hfood). reflexivity.
Qed.

Lemma mute_game (w1 w2 : World) :
  mute w1 = mute w2 ->
  snake (vars w1) = snake (vars w2) /\
  food (vars w1) = food (vars w2) /\
  score (vars w1) = score (vars w2).
Proof.
  intros H. repeat split.
  - exact (f_equal (fun w => snake (vars w)) H).
  - exact (f_equal (fun w => food (vars w)) H).
  - exact (f_equal (fun w => score (vars w)) H).
Qed.

Lemma outcome_map_world {A : Type} (f : World -> World) (o1 o2 : Outcome A) :
  outcome_map f o1 = outcome_map f o2 ->
  f (outcome_world o1) = f (outcome_world o2).
Proof.
  destruct o1, o2; cbn; intros H; try discriminate H; now injection H.
Qed.


(** * The claims of the specification *)

(** C1: a tick whose new head lies on any cell of the snake as it is before the
    move, the tail cell included, ends the session: [running] becomes false and
    the timer of [intervalId] is cleared, while snake, food and score stay as
    they were.  The cells are compared as pairs of numbers, so the new head is
    a cell of two integers. *)
Theorem tick_self_collision_ends_session (w : World) (head : Cell) (rest : list Cell) :
  running (vars w) = true ->
  snake (vars w) = head :: rest ->
  In (newHead head (heading (vars w))) (head :: rest) ->
  integral (newHead head (heading (vars w))) ->
  exists w',
    tick w = Returns tt w' /\
    running (vars w') = false /\
    timers (host w') = timers (stop_timer (intervalId (vars w)) (host w)) /\
    (forall id, intervalId (vars w) = Some id -> ~ In id (timers (host w'))) /\
    snake (vars w') = snake (vars w) /\
    food (vars w') = food (vars w) /\
    score (vars w') = score (vars w).
Proof.
  intros Hr Hs Hin Hint.
  pose proof (tick_collision w head rest Hr Hs) as Ht. cbv zeta in Ht.
  assert (Hocc : occupies (head :: rest)
                   (fst (newHead head (heading (vars w))))
                   (snd (newHead head (heading (vars w)))) = true)
    by now apply occupies_In_integral.
  rewrite (Ht Hocc), endGame_returns.
  eexists. split; [reflexivity|].
  unfold turn. destruct (pendingDirection (vars w)); js_simpl.
  all: repeat split; try reflexivity.
  all: intros id Hid; rewrite Hid; unfold stop_timer; js_simpl; apply remove_In.
Qed.

Lemma tick_self_collision_ends_session_witness :
  (exists w',
     tick coiled = Returns tt w' /\
     running (vars w') = false /\
     timers (host w') = [] /\
     snake (vars w') = [xy 5 5; xy 5 6; xy 6 6; xy 6 5; xy 7 5] /\
     food (vars w') = Some (xy 0 0) /\
     score (vars w') = 5) /\
  (exists w',
     tick chasing_tail = Returns tt w' /\
     running (vars w') = false /\
     snake (vars w') = [xy 5 5; xy 5 6; xy 6 6; xy 6 5] /\
     score (vars w') = 4).
Proof.
  split.
  - destruct (tick_self_collision_ends_session coiled (xy 5 5)
                [xy 5 6; xy 6 6; xy 6 5; xy 7 5])
      as (w' & Ht & Hrun & Htm & _ & Hs & Hf & Hsc).
    + reflexivity.
    + reflexivity.
    + vm_compute. tauto.
    + now exists 6, 5.
    + exists w'. repeat split; assumption.
  - destruct (tick_self_collision_ends_session chasing_tail (xy 5 5)
                [xy 5 6; xy 6 6; xy 6 5])
      as (w' & Ht & Hrun & _ & _ & Hs & _ & Hsc).
    + reflexivity.
    + reflexivity.
    + vm_compute. tauto.
    + now exists 6, 5.
    + exists w'. repeat split; assumption.
Defined.

(** C2, amended: a tick whose new head is off the snake and on the food puts
    the head in front without dropping the tail and raises the score by one,
    whether or not it then comes to an end, and then places food.  If it
    returns, the new food lies on a cell of the grid off the grown snake.  It
    returns exactly when the random values reach such a cell: while one exists
    they always still can, and when the grown snake covers the grid the tick
    never returns.  It never throws.  The new head and the food are compared
    as pairs of numbers, so the new head is a cell of two integers. *)
Theorem tick_feeding_grows (w : World) (head : Cell) (rest : list Cell) :
  running (vars w) = true ->
  snake (vars w) = head :: rest ->
  let c := newHead head (heading (vars w)) in
  ~ In c (head :: rest) ->
  food (vars w) = Some c ->
  integral c ->
  (forall w',
     tick w = Returns tt w' ->
     snake (vars w') = c :: snake (vars w) /\
     List.length (snake (vars w')) = S (List.length (snake (vars w))) /\
     score (vars w') = score (vars w) + 1 /\
     exists cell, food (vars w') = Some cell /\ in_grid cell /\
                  ~ In cell (snake (vars w'))) /\
  (snake (vars (outcome_world (tick w))) = c :: snake (vars w) /\
   score (vars (outcome_world (tick w))) = score (vars w) + 1) /\
  ((exists w', tick w = Returns tt w') <->
   finds_free (randoms (host w)) (c :: snake (vars w)) = true) /\
  ((exists cell, in_grid cell /\ ~ In cell (c :: snake (vars w))) ->
   forall rs, exists more w',
     tick (on_host (set_randoms (rs ++ more)) w) = Returns tt w') /\
  ((forall cell, in_grid cell -> In cell (c :: snake (vars w))) ->
   forall rs w', tick (on_host (set_randoms rs) w) <> Returns tt w') /\
  (forall err w', tick w <> Throws err w').
Proof.
  intros Hr Hs c Hfree Hfood Hint.
  assert (Hret : forall w0,
            vars w0 = vars w ->
            (exists w', tick w0 = Returns tt w') <->
            finds_free (randoms (host w0)) (c :: head :: rest) = true).
  { intros w0 Hv.
    assert (Hr0 : running (vars w0) = true) by now rewrite Hv.
    assert (Hs0 : snake (vars w0) = head :: rest) by now rewrite Hv.
    assert (Hfood0 : food (vars w0) = Some (newHead head (heading (vars w0))))
      by now rewrite Hv.
    assert (Hfree0 : ~ In (newHead head (heading (vars w0))) (head :: rest))
      by now rewrite Hv.
    assert (Hint0 : integral (newHead head (heading (vars w0))))
      by now rewrite Hv.
    destruct (tick_feed_outcome w0 head rest Hr0 Hs0 Hfree0 Hfood0 Hint0)
      as [(Hfind & w1 & cell & Ht & _)|(Hfind & w1 & Ht & _)];
      rewrite Hv in Hfind; fold c in Hfind; rewrite Hfind, Ht.
    - split; eauto.
    - split; [intros [w' Hw']|]; discriminate. }
  rewrite Hs.
  split; [|split; [|split; [|split; [|split]]]].
  - intros w' Hw'.
    destruct (tick_feed_outcome w head rest Hr Hs Hfree Hfood Hint)
      as [(_ & w1 & cell & Ht & Hsn & Hsc & Hfd & Hgrid & Hoff)
         |(_ & w1 & Ht & _)]; rewrite Ht in Hw'; [|discriminate Hw'].
    injection Hw' as <-. fold c in Hsn, Hoff.
    rewrite Hsn. repeat split; try assumption.
    exists cell. auto.
  - destruct (tick_feed_outcome w head rest Hr Hs Hfree Hfood Hint)
      as [(_ & w1 & cell & Ht & Hsn & Hsc & _)|(_ & w1 & Ht & Hsn & Hsc & _)];
      rewrite Ht; cbn [outcome_world]; split; assumption.
  - apply Hret. reflexivity.
  - intros (cell & Hgrid & Hoff) rs.
    destruct (finds_free_extend (c :: head :: rest) cell rs Hgrid Hoff) as [more Hmore].
    exists more. apply Hret; [reflexivity | exact Hmore].
  - intros Hfull rs w' Hw'.
    assert (Hfind : finds_free rs (c :: head :: rest) = true).
    { apply (Hret (on_host (set_randoms rs) w) eq_refl). eauto. }
    apply finds_free_first_free in Hfind as (cell & rs' & Hff).
    rewrite (first_free_none rs _ Hfull) in Hff. discriminate Hff.
  - intros err w' Hw'.
    apply tick_throws in Hw' as (_ & Hsn & _). rewrite Hs in Hsn. discriminate Hsn.
Qed.

Lemma tick_feeding_grows_witness :
  exists w',
    tick (started (Some (xy 21 15)) [random_half; random_half; random_zero; random_zero]) =
    Returns tt w' /\
    snake (vars w') = [xy 21 15; xy 20 15; xy 19 15; xy 18 15] /\
    score (vars w') = 4 /\
    exists cell, food (vars w') = Some cell /\
                 ~ In cell [xy 21 15; xy 20 15; xy 19 15; xy 18 15].
Proof.
  destruct (tick_feeding_grows
              (started (Some (xy 21 15))
                 [random_half; random_half; random_zero; random_zero])
              (xy 20 15) [xy 19 15; xy 18 15])
    as (Hstate & _ & [_ Hret] & _).
  - reflexivity.
  - reflexivity.
  - vm_compute. intuition discriminate.
  - reflexivity.
  - now exists 21, 15.
  - destruct (Hret ltac:(vm_compute; reflexivity)) as [w' Ht].
    exists w'. split; [exact Ht|].
    destruct (Hstate w' Ht) as (Hs & _ & Hsc & cell & Hf & _ & Hoff).
    split; [exact Hs|]. split; [exact Hsc|].
    exists cell. split; [exact Hf|]. rewrite Hs in Hoff. exact Hoff.
Defined.

(** C2 as stated fails on a full board.  [crowded] is reached by playing: its
    snake has 1199 cells and its head moves onto the last free cell, which
    holds the food.  The tick is a feeding tick, and whatever the browser
    supplies, whatever values [Math.random()] goes on to return, it does not
    return: no cell is left for the new food. *)
Lemma tick_on_full_board_never_returns :
  reachable crowded /\
  running (vars crowded) = true /\
  snake (vars crowded) = xy 27 14 :: tl (snake (vars crowded)) /\
  List.length (snake (vars crowded)) = 1199%nat /\
  newHead (xy 27 14) (heading (vars crowded)) = xy 28 14 /\
  ~ In (xy 28 14) (snake (vars crowded)) /\
  food (vars crowded) = Some (xy 28 14) /\
  ~ (exists name rs fault w',
       tick (on_host (supply name rs fault) crowded) = Returns tt w').
Proof.
  assert (Hs : snake (vars crowded) = xy 27 14 :: tl (snake (vars crowded))).
  { exact crowded_snake_head. }
  assert (Hint : integral (xy 28 14)) by now exists 28, 14.
  assert (Hoff : ~ In (xy 28 14) (snake (vars crowded))).
  { apply (occupies_false_In (snake (vars crowded)) (xy 28 14) Hint).
    vm_compute. reflexivity. }
  assert (Hfull : forall c, in_grid c ->
                            In c (xy 28 14 :: xy 27 14 :: tl (snake (vars crowded)))).
  { intros c Hc. change (snake (vars crowded)) with (rev (firstn 1199 spiral)).
    rewrite crowded_snake_grown. apply in_rev.
    rewrite rev_involutive. now apply spiral_covers. }
  split; [exact crowded_reachable|]. split; [reflexivity|]. split; [exact Hs|].
  split; [vm_compute; reflexivity|]. split; [reflexivity|]. split; [exact Hoff|].
  split; [reflexivity|].
  intros (name & rs & fault & w' & Ht).
  rewrite Hs in Hoff.
  destruct (tick_feed_outcome (on_host (supply name rs fault) crowded) (xy 27 14)
              (tl (snake (vars crowded))) eq_refl Hs Hoff eq_refl Hint)
    as [(Hfind & _)|(_ & w1 & Hun & _)].
  - apply finds_free_first_free in Hfind as (cell & rs' & Hff).
    rewrite first_free_none in Hff; [discriminate Hff | exact Hfull].
  - rewrite Hun in Ht. discriminate Ht.
Qed.

(** C3: a tick whose new head is neither on the snake nor on the food puts the
    new head in front and drops the last cell, so the length stays the same;
    food and score are untouched. *)
Theorem tick_plain_move_shifts_body (w : World) (head : Cell) (rest : list Cell) :
  running (vars w) = true ->
  snake (vars w) = head :: rest ->
  let c := newHead head (heading (vars w)) in
  ~ In c (head :: rest) ->
  food (vars w) <> Some c ->
  exists w',
    tick w = Returns tt w' /\
    snake (vars w') = c :: removelast (snake (vars w)) /\
    List.length (snake (vars w')) = List.length (snake (vars w)) /\
    food (vars w') = food (vars w) /\
    score (vars w') = score (vars w).
Proof.
  intros Hr Hs c Hfree Hfood.
  apply occupies_off in Hfree. apply on_food_false in Hfood.
  rewrite (tick_move w head rest Hr Hs Hfree Hfood).
  eexists. split; [reflexivity|].
  rewrite Hs. unfold turn. destruct (pendingDirection (vars w)); js_simpl.
  all: repeat split; try reflexivity.
  all: cbn [List.length]; now rewrite removelast_length.
Qed.

Lemma tick_plain_move_shifts_body_witness :
  exists w',
    tick (started (Some (xy 0 0)) []) = Returns tt w' /\
    snake (vars w') = [xy 21 15; xy 20 15; xy 19 15] /\
    List.length (snake (vars w')) = 3%nat /\
    food (vars w') = Some (xy 0 0) /\
    score (vars w') = 3.
Proof.
  destruct (tick_plain_move_shifts_body (started (Some (xy 0 0)) []) (xy 20 15)
              [xy 19 15; xy 18 15])
    as (w' & Ht & Hs & Hl & Hf & Hsc).
  - reflexivity.
  - reflexivity.
  - vm_compute. intuition discriminate.
  - vm_compute. discriminate.
  - exists w'. repeat split; assumption.
Defined.

(** C4: a recognised key whose vector is the exact negation of the active
    direction leaves the pending direction (and all else) as it was.  The test
    reads [direction] only: any other recognised key is stored, whatever is
    already pending, even its own negation. *)
Theorem handleKeyDown_ignores_reversal (w : World) (e_key : string) (dx dy : Z) :
  map (toLowerCase e_key) = Some (Vec dx dy) ->
  (direction (vars w) = Vec (- dx) (- dy) ->
   handleKeyDown e_key w = Returns tt w) /\
  (direction (vars w) <> Vec (- dx) (- dy) ->
   handleKeyDown e_key w =
   Returns tt (on_vars (set_pendingDirection (Some (Vec dx dy))) w)).
Proof.
  intros Hmap.
  assert (Hid : on_vars (set_pendingDirection (pendingDirection (vars w))) w = w).
  { destruct w as [g h]. destruct g. reflexivity. }
  rewrite handleKeyDown_steers. unfold steer. rewrite Hmap.
  destruct (reverses (Vec dx dy) (direction (vars w))) eqn:Hrev.
  - apply reverses_opposite in Hrev as (cx & cy & Hd & Hn).
    injection Hn as -> ->. rewrite Hd, !Z.opp_involutive.
    split; [intros _; now rewrite Hid | intros H; now elim H].
  - split; [|reflexivity].
    intros Hd.
    assert (Habs : reverses (Vec dx dy) (direction (vars w)) = true).
    { apply reverses_opposite. exists (- dx), (- dy).
      split; [exact Hd | now rewrite !Z.opp_involutive]. }
    congruence.
Qed.

Lemma handleKeyDown_ignores_reversal_witness :
  handleKeyDown "ArrowLeft" (started None []) = Returns tt (started None []) /\
  handleKeyDown "A"
    (mkWorld (game_vars start_snake (Vec 1 0) (Some (Vec 0 (-1))) None) (quiet_host [])) =
  Returns tt
    (mkWorld (game_vars start_snake (Vec 1 0) (Some (Vec 0 (-1))) None) (quiet_host [])) /\
  handleKeyDown "w"
    (mkWorld (game_vars start_snake (Vec 1 0) (Some (Vec 0 1)) None) (quiet_host [])) =
  Returns tt
    (mkWorld (game_vars start_snake (Vec 1 0) (Some (Vec 0 (-1))) None) (quiet_host [])).
Proof.
  split; [|split].
  - apply (handleKeyDown_ignores_reversal (started None []) "ArrowLeft" (-1) 0);
      reflexivity.
  - apply (handleKeyDown_ignores_reversal
             (mkWorld (game_vars start_snake (Vec 1 0) (Some (Vec 0 (-1))) None)
                (quiet_host []))
             "A" (-1) 0); reflexivity.
  - apply (handleKeyDown_ignores_reversal
             (mkWorld (game_vars start_snake (Vec 1 0) (Some (Vec 0 1)) None)
                (quiet_host []))
             "w" 0 (-1)); [reflexivity | discriminate].
Defined.

(** C5: for a head inside the grid and one of the four unit directions, the
    new head of a tick is [((x + dx + WIDTH) mod WIDTH, (y + dy + HEIGHT) mod
    HEIGHT)].  When this cell is off the snake the tick puts exactly it in
    front of the snake, whatever comes of the tick afterwards; the tick then
    returns with the game still running, at once when the cell does not hold
    the food, and as soon as food can be placed when it does.  When the cell
    is on the snake the tick returns with the game over and the snake as it
    was.  At each border the step comes back in on the opposite side. *)
Theorem tick_new_head_wraps (w : World) (x y dx dy : Z) (rest : list Cell) :
  running (vars w) = true ->
  snake (vars w) = xy x y :: rest ->
  heading (vars w) = Vec dx dy ->
  in_grid (xy x y) ->
  is_direction (Vec dx dy) ->
  let c := xy ((x + dx + BOARD_WIDTH) mod BOARD_WIDTH)
              ((y + dy + BOARD_HEIGHT) mod BOARD_HEIGHT) in
  newHead (xy x y) (Vec dx dy) = c /\
  in_grid c /\
  (~ In c (xy x y :: rest) ->
   hd_error (snake (vars (outcome_world (tick w)))) = Some c /\
   (food (vars w) <> Some c ->
    exists w',
      tick w = Returns tt w' /\ running (vars w') = true /\
      snake (vars w') = c :: removelast (xy x y :: rest)) /\
   (food (vars w) = Some c ->
    finds_free (randoms (host w)) (c :: xy x y :: rest) = true ->
    exists w',
      tick w = Returns tt w' /\ running (vars w') = true /\
      snake (vars w') = c :: xy x y :: rest)) /\
  (In c (xy x y :: rest) ->
   exists w',
     tick w = Returns tt w' /\ running (vars w') = false /\
     snake (vars w') = xy x y :: rest) /\
  (forall w', tick w = Returns tt w' -> running (vars w') = true ->
              hd_error (snake (vars w')) = Some c) /\
  (x = BOARD_WIDTH - 1 -> Vec dx dy = Vec 1 0 -> c = xy 0 y) /\
  (x = 0 -> Vec dx dy = Vec (-1) 0 -> c = xy (BOARD_WIDTH - 1) y) /\
  (y = BOARD_HEIGHT - 1 -> Vec dx dy = Vec 0 1 -> c = xy x 0) /\
  (y = 0 -> Vec dx dy = Vec 0 (-1) -> c = xy x (BOARD_HEIGHT - 1)).
Proof.
  intros Hr Hs Hd Hgrid Hdir c.
  pose proof Hgrid as Hxy. apply in_grid_xy in Hxy as [Hx Hy].
  assert (Hdx : -1 <= dx <= 1 /\ -1 <= dy <= 1).
  { destruct Hdir as [H|[H|[H|H]]]; injection H as -> ->; lia. }
  assert (Hc : newHead (xy x y) (Vec dx dy) = c).
  { unfold newHead, c. cbn [fst snd at_index to_number add remainder].
    unfold BOARD_WIDTH, BOARD_HEIGHT in *. cbn [Z.eqb].
    rewrite !rem_add_bound by tauto. reflexivity. }
  assert (Hcg : in_grid c).
  { rewrite <- Hc. now apply newHead_in_grid. }
  assert (Hint : integral c) by now apply in_grid_integral.
  pose proof (tick_running w (xy x y) rest Hr Hs) as Hpaths.
  cbv zeta in Hpaths. rewrite Hd, Hc in Hpaths.
  split; [exact Hc|]. split; [exact Hcg|].
  split; [|split; [|split]].
  - intros Hoff.
    destruct Hpaths as [((Hin & _) & _) | [(_ & Hon & Heq) | (_ & Hf & ctx & log & Heq)]].
    + contradiction.
    + rewrite Heq. cbn [outcome_world]. js_simpl. turn_simpl.
      split; [reflexivity|]. split.
      * intros _. eexists. split; [reflexivity|]. js_simpl. turn_simpl.
        split; [exact Hr | reflexivity].
      * intros Hfood. apply (on_food_integral _ c Hint) in Hon. contradiction.
    + rewrite Heq. split; [|split].
      * match goal with
        | |- context [first_free ?rs ?s] => destruct (first_free rs s) as [[spot rs']|]
        end; cbn [outcome_world]; js_simpl; reflexivity.
      * intros Hne. contradiction.
      * intros _ Hfind.
        apply finds_free_first_free in Hfind as (spot & rs' & Hff).
        match goal with
        | |- context [first_free ?rs ?s] =>
            change (first_free rs s)
              with (first_free (randoms (host w)) (c :: xy x y :: rest))
        end.
        rewrite Hff.
        eexists. split; [reflexivity|]. js_simpl. turn_simpl.
        split; [exact Hr | reflexivity].
  - intros Hin.
    destruct Hpaths as [(_ & Heq) | [(Hocc & _ & _) | ((Hoff & _) & _)]].
    + rewrite Heq. eexists. split; [reflexivity|]. js_simpl. turn_simpl.
      split; [reflexivity | exact Hs].
    + apply (occupies_false_In _ c Hint) in Hocc. contradiction.
    + contradiction.
  - intros w' Ht Hr'.
    destruct Hpaths as [(_ & Heq) | [(_ & _ & Heq) | (_ & _ & ctx & log & Heq)]];
      rewrite Heq in Ht.
    + injection Ht as <-. discriminate Hr'.
    + injection Ht as <-. reflexivity.
    + match type of Ht with
      | context [first_free ?rs ?s] => destruct (first_free rs s) as [[spot rs']|]
      end; [|discriminate Ht].
      injection Ht as <-. reflexivity.
  - unfold c, BOARD_WIDTH, BOARD_HEIGHT in *.
    repeat split; intros -> H; injection H as -> ->; f_equal; f_equal;
      first [ reflexivity | apply mod_add_bound; assumption ].
Qed.

Lemma tick_new_head_wraps_witness :
  newHead (xy 39 15) (Vec 1 0) = xy 0 15 /\
  exists w',
    tick (mkWorld (game_vars [xy 39 15; xy 38 15; xy 37 15] (Vec 1 0) None None)
            (quiet_host [])) = Returns tt w' /\
    running (vars w') = true /\
    snake (vars w') = [xy 0 15; xy 39 15; xy 38 15].
Proof.
  destruct (tick_new_head_wraps
              (mkWorld (game_vars [xy 39 15; xy 38 15; xy 37 15] (Vec 1 0) None None)
                 (quiet_host []))
              39 15 1 0 [xy 38 15; xy 37 15])
    as (Hc & _ & Hoff & _).
  - reflexivity.
  - reflexivity.
  - reflexivity.
  - apply in_grid_xy. unfold BOARD_WIDTH, BOARD_HEIGHT. lia.
  - right; right; right; reflexivity.
  - split; [exact Hc|].
    destruct Hoff as (_ & Hmove & _).
    + vm_compute. intuition discriminate.
    + apply Hmove. discriminate.
Defined.

(** C6: whenever [startGame] returns, the snake is the three cells
    [(20, 15); (19, 15); (18, 15)], the direction is [(1, 0)], no direction is
    pending, the food is a cell of the grid off the snake, the score is the
    snake's length, 3, and the game runs.  It returns exactly when the random
    values reach a cell off the snake, which they always still can, and it
    never throws. *)
Theorem startGame_initial_state (w : World) :
  (forall w',
     startGame w = Returns tt w' ->
     snake (vars w') =
       [xy (BOARD_WIDTH / 2) (BOARD_HEIGHT / 2);
        xy (BOARD_WIDTH / 2 - 1) (BOARD_HEIGHT / 2);
        xy (BOARD_WIDTH / 2 - 2) (BOARD_HEIGHT / 2)] /\
     snake (vars w') = [xy 20 15; xy 19 15; xy 18 15] /\
     direction (vars w') = Vec 1 0 /\
     pendingDirection (vars w') = None /\
     (exists cell, food (vars w') = Some cell /\ in_grid cell /\
                   ~ In cell (snake (vars w'))) /\
     score (vars w') = Z.of_nat (List.length (snake (vars w'))) /\
     score (vars w') = 3 /\
     running (vars w') = true) /\
  ((exists w', startGame w = Returns tt w') <->
   finds_free (randoms (host w)) start_snake = true) /\
  (forall rs, exists more w',
     startGame (on_host (set_randoms (rs ++ more)) w) = Returns tt w') /\
  (forall err w', startGame w <> Throws err w').
Proof.
  assert (Hret : forall w0,
            (exists w', startGame w0 = Returns tt w') <->
            finds_free (randoms (host w0)) start_snake = true).
  { intros w0. rewrite finds_free_first_free.
    pose proof (startGame_spec w0) as Hspec. cbv zeta in Hspec. rewrite Hspec.
    split.
    - intros [w' Ht].
      destruct (first_free (randoms (host w0)) start_snake) as [[cell rs']|];
        [eauto | discriminate Ht].
    - intros (cell & rs' & ->). eauto. }
  pose proof (startGame_spec w) as Hspec. cbv zeta in Hspec.
  split; [|split; [|split]].
  - intros w' Ht. rewrite Hspec in Ht.
    destruct (first_free (randoms (host w)) start_snake) as [[cell rs']|] eqn:Hff;
      [|discriminate Ht].
    injection Ht as <-. js_simpl.
    apply first_free_sound in Hff as [Hgrid Hfree].
    repeat split; try reflexivity.
    exists cell. split; [reflexivity|]. split; [exact Hgrid|].
    now apply (occupies_false_In _ cell (in_grid_integral cell Hgrid)).
  - apply Hret.
  - intros rs.
    destruct (finds_free_extend start_snake (xy 0 0) rs) as [more Hmore].
    + apply in_grid_xy. unfold BOARD_WIDTH, BOARD_HEIGHT. lia.
    + apply (occupies_false_In start_snake (xy 0 0)); [now exists 0, 0 | reflexivity].
    + exists more. apply Hret. exact Hmore.
  - intros err w' Ht. rewrite Hspec in Ht.
    destruct (first_free (randoms (host w)) start_snake) as [[cell rs']|];
      discriminate Ht.
Qed.

Lemma startGame_initial_state_witness :
  exists w',
    startGame (fresh_page [random_half; random_half; random_zero; random_zero]) =
    Returns tt w' /\
    snake (vars w') = [xy 20 15; xy 19 15; xy 18 15] /\
    direction (vars w') = Vec 1 0 /\
    pendingDirection (vars w') = None /\
    (exists cell, food (vars w') = Some cell /\ ~ In cell (snake (vars w'))) /\
    score (vars w') = 3 /\
    running (vars w') = true.
Proof.
  destruct (startGame_initial_state
              (fresh_page [random_half; random_half; random_zero; random_zero]))
    as (Hstate & [_ Hret] & _ & _).
  destruct (Hret ltac:(vm_compute; reflexivity)) as [w' Ht].
  exists w'. split; [exact Ht|].
  destruct (Hstate w' Ht) as (_ & Hs & Hd & Hp & (cell & Hf & _ & Hoff) & _ & Hsc & Hr).
  repeat split; try assumption.
  exists cell. split; assumption.
Defined.

(** C7: the cell [randomEmptyPosition] returns lies inside the grid and on no
    segment of the snake; the call changes none of the script's variables. *)
Theorem randomEmptyPosition_returns_free_cell (w w' : World) (c : Cell) :
  randomEmptyPosition w = Returns c w' ->
  (exists x y : Z, c = xy x y /\ 0 <= x < BOARD_WIDTH /\ 0 <= y < BOARD_HEIGHT) /\
  ~ In c (snake (vars w)) /\
  vars w' = vars w.
Proof.
  rewrite randomEmptyPosition_spec.
  destruct (first_free (randoms (host w)) (snake (vars w))) as [[cell rest]|] eqn:Hff;
    [|discriminate].
  intros H. injection H as <- <-.
  apply first_free_sound in Hff as [Hgrid Hfree].
  split; [exact Hgrid|]. split; [|reflexivity].
  now apply (occupies_false_In _ cell (in_grid_integral cell Hgrid)).
Qed.

Lemma randomEmptyPosition_returns_free_cell_witness :
  randomEmptyPosition
    (started None [random_half; random_half; random_zero; random_zero]) =
  Returns (xy 0 0) (started None []) /\
  (exists x y : Z, xy 0 0 = xy x y /\ 0 <= x < BOARD_WIDTH /\ 0 <= y < BOARD_HEIGHT) /\
  ~ In (xy 0 0) start_snake.
Proof.
  assert (H : randomEmptyPosition
                (started None [random_half; random_half; random_zero; random_zero]) =
              Returns (xy 0 0) (started None [])) by (vm_compute; reflexivity).
  split; [exact H|].
  destruct (randomEmptyPosition_returns_free_cell _ _ _ H) as (Hg & Hf & _).
  split; [exact Hg | exact Hf].
Defined.

(** C8: [playBeep] returns whatever the audio calls do, having touched nothing
    but the audio context and the audio output; so a feeding tick ends in no
    exception, and with any other behaviour of the audio API it ends the same
    way with the same snake, food and score, and the same state throughout
    apart from the audio context and output. *)
Theorem tick_tone_failure_is_contained (w : World) (head : Cell) (rest : list Cell) :
  running (vars w) = true ->
  snake (vars w) = head :: rest ->
  let c := newHead head (heading (vars w)) in
  ~ In c (head :: rest) ->
  food (vars w) = Some c ->
  (forall w0, exists w1, playBeep w0 = Returns tt w1 /\ mute w1 = mute w0) /\
  (forall err w', tick w <> Throws err w') /\
  (forall fault,
     let o := tick w in
     let o' := tick (with_audio_fault fault w) in
     outcome_map mute o' = outcome_map mute o /\
     snake (vars (outcome_world o')) = snake (vars (outcome_world o)) /\
     food (vars (outcome_world o')) = food (vars (outcome_world o)) /\
     score (vars (outcome_world o')) = score (vars (outcome_world o))).
Proof.
  intros Hr Hs c Hfree Hfood. split; [|split].
  - intros w0. destruct (playBeep_returns w0) as (ctx & log & Hb).
    eexists. split; [exact Hb | reflexivity].
  - intros err w' Ht.
    apply tick_throws in Ht as (_ & Hsn & _). rewrite Hs in Hsn. discriminate Hsn.
  - intros fault o o'.
    pose proof (tick_mute w fault) as Hm. fold o o' in Hm.
    split; [exact Hm|].
    apply mute_game. now apply outcome_map_world.
Qed.

Lemma tick_tone_failure_is_contained_witness :
  let w := started (Some (xy 21 15)) [random_zero; random_zero] in
  outcome_map mute (tick (with_audio_fault (fun _ => true) w)) =
  outcome_map mute (tick w) /\
  score (vars (outcome_world (tick (with_audio_fault (fun _ => true) w)))) = 4 /\
  audio_log (host (outcome_world (tick (with_audio_fault (fun _ => true) w)))) = [] /\
  List.length (audio_log (host (outcome_world (tick w)))) = 10%nat.
Proof.
  cbv zeta.
  destruct (tick_tone_failure_is_contained
              (started (Some (xy 21 15)) [random_zero; random_zero])
              (xy 20 15) [xy 19 15; xy 18 15])
    as (_ & _ & Hsame).
  - reflexivity.
  - reflexivity.
  - vm_compute. intuition discriminate.
  - reflexivity.
  - destruct (Hsame (fun _ => true)) as (Hm & _).
    split; [exact Hm|]. vm_compute. repeat split.
Defined.

(** C9: in every state the game can reach, if the session runs then the score
    is the length of the snake; and a tick raises both by one or changes
    neither. *)
Theorem score_equals_snake_length (w : World) :
  reachable w ->
  (running (vars w) = true ->
   score (vars w) = Z.of_nat (List.length (snake (vars w)))) /\
  (forall w',
     tick w = Returns tt w' ->
     (score (vars w') = score (vars w) + 1 /\
      List.length (snake (vars w')) = S (List.length (snake (vars w)))) \/
     (score (vars w') = score (vars w) /\
      List.length (snake (vars w')) = List.length (snake (vars w)))).
Proof.
  intros Hreach. split.
  - intros Hr. apply (reachable_sound w Hreach). exact Hr.
  - intros w'. apply tick_score_length.
Qed.

Lemma score_equals_snake_length_witness :
  handler StartClick (fresh_page [random_half; random_half; random_zero; random_zero]) =
  Returns tt after_start /\
  reachable after_start /\
  running (vars after_start) = true /\
  score (vars after_start) = Z.of_nat (List.length (snake (vars after_start))).
Proof.
  assert (Hh : handler StartClick
                 (fresh_page [random_half; random_half; random_zero; random_zero]) =
               Returns tt after_start) by (vm_compute; reflexivity).
  assert (Hreach : reachable after_start).
  { apply (reach_return
             (fresh_page [random_half; random_half; random_zero; random_zero])
             StartClick after_start); [|reflexivity|exact Hh].
    unfold fresh_page. apply reach_load; reflexivity. }
  destruct (score_equals_snake_length after_start Hreach) as [Hinv _].
  split; [exact Hh|]. split; [exact Hreach|]. split; [reflexivity|].
  exact (Hinv eq_refl).
Defined.

(** C10: when [running] is false, [tick] returns at once and leaves the whole
    state as it was: snake, food, score, both directions, the session flag,
    and everything of the page. *)
Theorem tick_not_running_changes_nothing (w : World) :
  running (vars w) = false -> tick w = Returns tt w.
Proof. exact (tick_idle w). Qed.

Lemma tick_not_running_changes_nothing_witness :
  running (vars (mkWorld initial_vars (quiet_host []))) = false /\
  tick (mkWorld initial_vars (quiet_host [])) =
  Returns tt (mkWorld initial_vars (quiet_host [])).
Proof.
  split; [reflexivity|].
  apply (tick_not_running_changes_nothing (mkWorld initial_vars (quiet_host []))).
  reflexivity.
Defined.


(** * Further properties *)

(** X1: for every value [Math.random()] can return, the rounded binary64
    products [r * 40] and [r * 30] are finite numbers, and their floors are a
    column in [0, 40) and a row in [0, 30). *)
Theorem sampling_stays_on_board (r : Double.random) :
  Double.is_finite (Double.mul (Double.value r) (Double.of_Z BOARD_WIDTH)) = true /\
  0 <= Double.random_index r BOARD_WIDTH < BOARD_WIDTH /\
  Double.is_finite (Double.mul (Double.value r) (Double.of_Z BOARD_HEIGHT)) = true /\
  0 <= Double.random_index r BOARD_HEIGHT < BOARD_HEIGHT.
Proof.
  destruct (random_index_range r BOARD_WIDTH 5629499534213120 (-47)) as [Hfw Hw];
    [vm_compute; reflexivity | split; reflexivity | lia | reflexivity |].
  destruct (random_index_range r BOARD_HEIGHT 8444249301319680 (-48)) as [Hfh Hh];
    [vm_compute; reflexivity | split; reflexivity | lia | reflexivity |].
  repeat split; first [exact Hfw | exact Hfh | apply Hw | apply Hh].
Qed.

(** X2: [handleKeyDown] returns and writes nothing but [pendingDirection]:
    it changes nothing, or stores what the map holds for the key in lower
    case, which is the unit vector of one of the eight keys or, for
    [constructor] and [__proto__], the member the map inherits; such a member
    is stored whatever the direction is.  A key the map holds nothing for
    changes nothing. *)
Theorem handleKeyDown_writes_only_pending (e_key : string) (w : World) :
  (handleKeyDown e_key w = Returns tt w \/
   exists v,
     map (toLowerCase e_key) = Some v /\
     (is_direction v \/ exists m, v = Member m) /\
     handleKeyDown e_key w = Returns tt (on_vars (set_pendingDirection (Some v)) w)) /\
  (map (toLowerCase e_key) = None -> handleKeyDown e_key w = Returns tt w) /\
  (forall m,
     map (toLowerCase e_key) = Some (Member m) ->
     handleKeyDown e_key w =
     Returns tt (on_vars (set_pendingDirection (Some (Member m))) w)) /\
  (map "constructor" = Some (Member Object_constructor) /\
   map "__proto__" = Some (Member Object_prototype)).
Proof.
  assert (Hid : on_vars (set_pendingDirection (pendingDirection (vars w))) w = w).
  { destruct w as [g h]. destruct g. reflexivity. }
  rewrite handleKeyDown_steers.
  split; [|split; [|split]].
  - destruct (steer_cases (direction (vars w)) (pendingDirection (vars w)) e_key)
      as [Hsame | (newDir & Hnew & Hmap & _)].
    + left. now rewrite Hsame, Hid.
    + right. exists newDir. split; [exact Hmap|].
      split; [exact (map_steerable _ _ Hmap) | now rewrite Hnew].
  - intros Hnone. unfold steer. now rewrite Hnone, Hid.
  - intros m Hm. unfold steer. rewrite Hm.
    destruct (direction (vars w)) as [dx dy|m']; reflexivity.
  - split; reflexivity.
Qed.

(** X3: whatever keys are pressed, every state the page can reach is sound:
    both directions are unit vectors or inherited members, and while the game
    runs the score is the length of the snake, which is at least 3 and at
    most the number of cells of the grid, the food is a cell of the grid off
    the snake, and the snake's cells are distinct cells of the grid unless
    its head is [[NaN, NaN]].  There the click on start, a key press and a
    tick never end in an exception. *)
Theorem reachable_states_are_sound (w : World) :
  reachable w ->
  sound (vars w) /\
  (forall e err w', e <> AnimationFrame -> handler e w <> Throws err w').
Proof.
  intros Hreach.
  pose proof (reachable_sound w Hreach) as Hs.
  split; [exact Hs|].
  intros e err w' _. now apply handler_no_throw.
Qed.

Lemma reachable_states_are_sound_witness :
  sound (vars crowded) /\
  (forall err w', handler TimerFires crowded <> Throws err w').
Proof.
  destruct (reachable_states_are_sound crowded) as [Hs Hthrow].
  - apply (play_reachable full_game loaded crowded).
    + apply reach_load; reflexivity.
    + vm_compute. reflexivity.
  - split; [exact Hs|]. intros err w'. apply Hthrow. discriminate.
Defined.

(** * Properties of the rest of the script *)

(** ** Sampling *)

Lemma first_free_split (rs rest : list Double.random) (s : list Cell) (c : Cell) :
  first_free rs s = Some (c, rest) ->
  exists rejected rx ry,
    rs = rejected ++ rx :: ry :: rest /\
    all_rejected rejected s = true /\
    sampled rx ry = c.
Proof.
  induction rs as [| rx | rx ry rs IH] using list_pair_ind; cbn [first_free];
    try discriminate.
  destruct (occupies s (fst (sampled rx ry)) (snd (sampled rx ry))) eqn:Hocc.
  - intros H. destruct (IH H) as (rejected & rx' & ry' & -> & Hrej & Hc).
    exists (rx :: ry :: rejected), rx', ry'. repeat split; [|exact Hc].
    cbn [all_rejected]. now rewrite Hocc, Hrej.
  - intros H. injection H as <- <-. exists [], rx, ry. repeat split.
Qed.

(** X4: [randomEmptyPosition] returns the first sample that is off the snake:
    the random values it has used up are an even number of values whose pairs
    all selected occupied cells, followed by the pair that selected the cell
    it returns; the values after that are left for later calls, and nothing
    else of the state changes. *)
Theorem randomEmptyPosition_returns_first_free_sample (w w' : World) (c : Cell) :
  randomEmptyPosition w = Returns c w' ->
  exists rejected rx ry,
    randoms (host w) = rejected ++ rx :: ry :: randoms (host w') /\
    all_rejected rejected (snake (vars w)) = true /\
    c = xy (Double.random_index rx BOARD_WIDTH) (Double.random_index ry BOARD_HEIGHT) /\
    w' = on_host (set_randoms (randoms (host w'))) w.
Proof.
  rewrite randomEmptyPosition_spec.
  destruct (first_free (randoms (host w)) (snake (vars w))) as [[cell rest]|] eqn:Hff;
    [|discriminate].
  intros H. injection H as <- <-.
  destruct (first_free_split _ _ _ _ Hff) as (rejected & rx & ry & Hrs & Hrej & Hc).
  exists rejected, rx, ry. js_simpl. repeat split; try assumption.
  symmetry. exact Hc.
Qed.

Lemma randomEmptyPosition_returns_first_free_sample_witness :
  exists rejected rx ry,
    [random_half; random_half; random_zero; random_zero; random_half] =
    rejected ++ rx :: ry :: [random_half] /\
    all_rejected rejected start_snake = true /\
    xy 0 0 =
    xy (Double.random_index rx BOARD_WIDTH) (Double.random_index ry BOARD_HEIGHT).
Proof.
  destruct (randomEmptyPosition_returns_first_free_sample
              (started None [random_half; random_half; random_zero; random_zero;
                             random_half])
              (started None [random_half]) (xy 0 0))
    as (rejected & rx & ry & Hrs & Hrej & Hc & _).
  - vm_compute. reflexivity.
  - exists rejected, rx, ry. repeat split; assumption.
Defined.

(** X5: the food can fall on every free cell: for each cell of the grid that
    is off the snake there are two values of [Math.random()] on which
    [randomEmptyPosition] returns that cell at once. *)
Theorem randomEmptyPosition_reaches_every_free_cell (w : World) (c : Cell)
    (rs : list Double.random) :
  in_grid c ->
  ~ In c (snake (vars w)) ->
  exists rx ry,
    randomEmptyPosition (on_host (set_randoms (rx :: ry :: rs)) w) =
    Returns c (on_host (set_randoms rs) w).
Proof.
  intros Hgrid Hoff. pose proof Hgrid as (x & y & Hc & _). subst c.
  exists (random_at x BOARD_WIDTH), (random_at y BOARD_HEIGHT).
  rewrite randomEmptyPosition_spec. js_simpl. cbn [first_free].
  rewrite (sampled_onto x y Hgrid).
  apply occupies_off in Hoff. rewrite Hoff. reflexivity.
Qed.

Lemma randomEmptyPosition_reaches_every_free_cell_witness :
  exists rx ry,
    randomEmptyPosition (on_host (set_randoms [rx; ry]) (started None [])) =
    Returns (xy 39 29) (on_host (set_randoms []) (started None [])).
Proof.
  apply (randomEmptyPosition_reaches_every_free_cell (started None []) (xy 39 29) []).
  - apply in_grid_xy. unfold BOARD_WIDTH, BOARD_HEIGHT. lia.
  - vm_compute. intuition discriminate.
Defined.

(** ** How the snake moves *)

Lemma chained_cons (a b : Cell) (s : list Cell) :
  chained (a :: b :: s) <-> step_apart a b /\ chained (b :: s).
Proof. reflexivity. Qed.

Lemma chained_removelast (s : list Cell) : chained s -> chained (removelast s).
Proof.
  induction s as [|a s IH]; [trivial|].
  destruct s as [|b s]; [trivial|].
  intros [Hab Hch].
  change (removelast (a :: b :: s)) with (a :: removelast (b :: s)).
  destruct s as [|c s]; [exact I|].
  change (removelast (b :: c :: s)) with (b :: removelast (c :: s)) in *.
  apply chained_cons. split; [exact Hab | exact (IH Hch)].
Qed.

Lemma leads_away_everywhere :
  forallb (fun n => forallb (fun d => forallb (leads_away n d) directions) directions)
    grid_cells = true.
Proof. vm_compute. reflexivity. Qed.

Lemma is_direction_In (d : Value) : is_direction d -> In d directions.
Proof. unfold is_direction, directions. cbn [In]. intuition auto. Qed.

Lemma not_opposite_not_reverses (d d' : Value) :
  is_direction d -> d' <> opposite d -> reverses d' d = false.
Proof.
  intros Hd Hopp. destruct (reverses d' d) eqn:Hrev; [|reflexivity].
  apply reverses_opposite in Hrev as (dx & dy & -> & ->). now elim Hopp.
Qed.

Lemma not_reverses_not_opposite (d d' : Value) :
  is_direction d -> reverses d' d = false -> d' <> opposite d.
Proof.
  intros Hd Hrev Hopp.
  assert (H : reverses d' d = true).
  { apply reverses_opposite.
    destruct Hd as [ -> | [ -> | [ -> | -> ] ] ]; rewrite Hopp; eauto. }
  congruence.
Qed.

(** Two steps lead away from where they start, unless the second reverses the
    first. *)
Lemma no_backstep (n : Cell) (d d' : Value) :
  in_grid n -> is_direction d -> is_direction d' -> d' <> opposite d ->
  newHead (newHead n d) d' <> n.
Proof.
  intros Hn Hd Hd' Hopp.
  pose proof leads_away_everywhere as Hall.
  rewrite forallb_forall in Hall.
  specialize (Hall n (grid_cells_cover n Hn)).
  rewrite forallb_forall in Hall.
  specialize (Hall d (is_direction_In d Hd)).
  rewrite forallb_forall in Hall.
  specialize (Hall d' (is_direction_In d' Hd')).
  unfold leads_away in Hall.
  rewrite (not_opposite_not_reverses d d' Hd Hopp) in Hall. cbn [orb] in Hall.
  apply negb_true_iff, cell_eqb_neq in Hall as [Hne|Hnot]; [exact Hne|].
  elim Hnot. apply in_grid_integral.
  apply newHead_in_grid; [|exact Hd']. now apply newHead_in_grid.
Qed.

Lemma start_snake_chained :
  chained start_snake /\
  (forall h n rest, start_snake = h :: n :: rest -> h = newHead n (Vec 1 0)).
Proof.
  split.
  - unfold start_snake. apply chained_cons. split.
    { exists (Vec 1 0). split; [right; right; right; reflexivity | reflexivity]. }
    apply chained_cons. split; [|exact I].
    exists (Vec 1 0). split; [right; right; right; reflexivity | reflexivity].
  - intros h n rest Hs. unfold start_snake in Hs. injection Hs as <- <- _. reflexivity.
Qed.

Lemma tick_keeps_moving (w w' : World) :
  well_formed (vars w) -> moving (vars w) -> tick w = Returns tt w' -> moving (vars w').
Proof.
  intros Hwf Hmov Ht.
  pose proof (heading_is_direction (vars w) Hwf) as Hhead.
  destruct Hwf as (_ & _ & Hrun). destruct Hmov as (Hpend & Hgo).
  destruct (running (vars w)) eqn:Hr.
  2: { rewrite (tick_idle w Hr) in Ht. injection Ht as <-.
       split; [exact Hpend|]. rewrite Hr. discriminate. }
  destruct (Hrun eq_refl) as (_ & Hlen & _).
  destruct (Hgo eq_refl) as (Hfood & Hch & _).
  destruct (snake (vars w)) as [|head rest] eqn:Hs.
  { rewrite (tick_empty w Hr Hs) in Ht. discriminate Ht. }
  destruct rest as [|neck rest]; [cbn in Hlen; lia|].
  destruct (tick_running w head (neck :: rest) Hr Hs)
    as [(_ & Heq) | [(_ & _ & Heq) | (_ & _ & ctx & log & Heq)]];
    cbv zeta in Heq; rewrite Heq in Ht; clear Heq.
  - injection Ht as <-. unfold moving. js_simpl. turn_simpl.
    split; [discriminate | discriminate].
  - injection Ht as <-. unfold moving. js_simpl. turn_simpl.
    change (match neck :: rest with [] => [] | _ :: _ => head :: removelast (neck :: rest) end)
      with (head :: removelast (neck :: rest)).
    split; [discriminate|]. intros _. split; [exact Hfood|]. split.
    + apply chained_cons. split; [now exists (heading (vars w))|].
      now apply (chained_removelast (head :: neck :: rest)).
    + intros h n r Hl. injection Hl as <- <- _. reflexivity.
  - destruct (first_free (randoms (host w)) _) as [[cell rs']|]; [|discriminate Ht].
    injection Ht as <-. unfold moving. js_simpl. turn_simpl.
    split; [discriminate|]. intros _. split; [discriminate|]. split.
    + apply chained_cons. split; [now exists (heading (vars w)) | exact Hch].
    + intros h n r Hl. injection Hl as <- <- _. reflexivity.
Qed.

Lemma handler_keeps_moving (e : Event) (w w' : World) :
  well_formed (vars w) -> moving (vars w) ->
  handler e w = Returns tt w' -> moving (vars w').
Proof.
  intros Hwf Hmov Hh. destruct e as [|e_key| |].
  - rewrite start_click_spec in Hh. cbv zeta in Hh.
    destruct (first_free (randoms (host w)) start_snake) as [[cell rs']|];
      [|discriminate Hh].
    injection Hh as <-. unfold moving. js_simpl.
    split; [discriminate|]. intros _. split; [discriminate|].
    exact start_snake_chained.
  - cbn [handler] in Hh. rewrite handleKeyDown_steers in Hh. injection Hh as <-.
    destruct Hmov as (Hpend & Hgo). unfold moving. js_simpl. split; [|exact Hgo].
    intros d Hd.
    destruct (steer_cases (direction (vars w)) (pendingDirection (vars w)) e_key)
      as [Hsame | (newDir & Hnew & _ & Hrev)].
    + rewrite Hsame in Hd. now apply Hpend.
    + rewrite Hnew in Hd. injection Hd as <-.
      apply not_reverses_not_opposite; [exact (proj1 Hwf) | exact Hrev].
  - now apply (tick_keeps_moving w w').
  - rewrite frame_spec in Hh. injection Hh as <-. exact Hmov.
Qed.

(** ** What the page shows *)

Lemma entered_name_not_empty (typed : string) : entered_name typed <> EmptyString.
Proof.
  unfold entered_name. destruct (trim typed); discriminate.
Qed.



(** ** Timers and frame requests *)

Lemma remove_subset (i x : nat) (l : list nat) :
  In x (List.remove Nat.eq_dec i l) -> In x l.
Proof. intros H. now apply in_remove in H. Qed.

Lemma handler_keeps_timed (e : Event) (w w' : World) :
  timed w -> handler e w = Returns tt w' -> timed w'.
Proof.
  intros Htimed Hh. pose proof Htimed as (Hall & Hid & Hon & Hoff).
  destruct e as [|e_key| |].
  - rewrite start_click_spec in Hh. cbv zeta in Hh.
    destruct (first_free (randoms (host w)) start_snake) as [[cell rs']|];
      [|discriminate Hh].
    injection Hh as <-. unfold timed. js_simpl.
    split; [|split; [|split]].
    + constructor; [lia|]. eapply Forall_impl; [|exact Hall]. cbn beta. lia.
    + intros id Heq. injection Heq as <-. lia.
    + intros _. split; [|lia].
      exists (next_timer (host w)). split; [reflexivity | now left].
    + discriminate.
  - cbn [handler] in Hh. rewrite handleKeyDown_steers in Hh. injection Hh as <-.
    exact Htimed.
  - cbn [handler] in Hh.
    destruct (running (vars w)) eqn:Hr.
    2: { rewrite (tick_idle w Hr) in Hh. injection Hh as <-. exact Htimed. }
    destruct (snake (vars w)) as [|head rest] eqn:Hs.
    { rewrite (tick_empty w Hr Hs) in Hh. discriminate Hh. }
    destruct (Hon eq_refl) as ((id & Hcur & Hin) & Hfr).
    destruct (tick_running w head rest Hr Hs)
      as [(_ & Heq) | [(_ & _ & Heq) | (_ & _ & ctx & log & Heq)]];
      cbv zeta in Heq; rewrite Heq in Hh; clear Heq.
    + injection Hh as <-. unfold timed, stop_timer. js_simpl. turn_simpl.
      rewrite Hcur. split; [|split; [|split]].
      * apply Forall_forall. intros x Hx. rewrite Forall_forall in Hall.
        apply Hall. now apply (remove_subset id).
      * intros id' Heq. apply Hid. now rewrite Hcur.
      * discriminate.
      * intros _ id' Heq. injection Heq as <-. apply remove_In.
    + injection Hh as <-. unfold timed. js_simpl. turn_simpl. rewrite Hr.
      split; [exact Hall|]. split; [exact Hid|].
      split; [intros _; split; [now exists id | exact Hfr] | discriminate].
    + destruct (first_free (randoms (host w)) _) as [[cell rs']|]; [|discriminate Hh].
      injection Hh as <-. unfold timed. js_simpl. turn_simpl. rewrite Hr.
      split; [exact Hall|]. split; [exact Hid|].
      split; [intros _; split; [now exists id | exact Hfr] | discriminate].
  - rewrite frame_spec in Hh. injection Hh as <-. unfold timed. js_simpl.
    split; [exact Hall|]. split; [exact Hid|]. split; [|exact Hoff].
    intros Hr. rewrite Hr. split; [exact (proj1 (Hon Hr)) | lia].
Qed.

Lemma reachable_timed (w : World) : reachable w -> timed w.
Proof.
  apply (reachable_invariant timed).
  - intros h Ht Hf. unfold timed. js_simpl. rewrite Ht.
    split; [constructor|]. split; [discriminate|]. split; [discriminate|].
    intros _ id Hid. discriminate Hid.
  - intros w0 name rs fault Ht. exact Ht.
  - intros w0 e w' _ Ht _ Hh. exact (handler_keeps_timed e w0 w' Ht Hh).
Qed.

(** ** Concrete states, and steps of the page *)

Lemma after_start_reachable : reachable after_start.
Proof.
  apply (play_reachable [Fire StartClick]
           (fresh_page [random_half; random_half; random_zero; random_zero]) after_start).
  - unfold fresh_page. apply reach_load; reflexivity.
  - vm_compute. reflexivity.
Qed.


Lemma step_reachable (s : Step) (w w' : World) :
  reachable w -> step s w = Some w' -> reachable w'.
Proof.
  intros Hw Hstep. apply (play_reachable [s] w w' Hw).
  cbn [play]. now rewrite Hstep.
Qed.

(** What a step of the page is, when it starts in a reachable state. *)
Lemma step_cases (s : Step) (w w' : World) :
  reachable w -> step s w = Some w' ->
  (exists name rs fault,
     s = Supply name rs fault /\ w' = on_host (supply name rs fault) w) \/
  (exists e, s = Fire e /\ enabled e w = true /\ handler e w = Returns tt w').
Proof.
  intros Hw Hstep. destruct s as [name rs fault|e]; cbn [step] in Hstep.
  - injection Hstep as <-. left. now exists name, rs, fault.
  - destruct (enabled e w) eqn:Hen; [|discriminate Hstep].
    destruct (handler e w) as [[] w2|err w2|w2] eqn:Hh; [| |discriminate Hstep].
    + injection Hstep as <-. right. now exists e.
    + exfalso. exact (handler_no_throw e w w2 err (reachable_sound w Hw) Hh).
Qed.

(** ** Timers no variable holds *)

Lemma handler_keeps_stale (old : nat) (e : Event) (w w' : World) :
  timed w -> stale old w -> handler e w = Returns tt w' -> stale old w'.
Proof.
  intros (Hall & _) [Hin Hne] Hh.
  destruct e as [|e_key| |].
  - rewrite start_click_spec in Hh. cbv zeta in Hh.
    destruct (first_free (randoms (host w)) start_snake) as [[cell rs']|];
      [|discriminate Hh].
    injection Hh as <-. unfold stale. js_simpl. split; [now right|].
    intros Heq. injection Heq as Heq.
    rewrite Forall_forall in Hall. specialize (Hall old Hin). lia.
  - cbn [handler] in Hh. rewrite handleKeyDown_steers in Hh. injection Hh as <-.
    split; assumption.
  - cbn [handler] in Hh.
    destruct (running (vars w)) eqn:Hr.
    2: { rewrite (tick_idle w Hr) in Hh. injection Hh as <-. split; assumption. }
    destruct (snake (vars w)) as [|head rest] eqn:Hs.
    { rewrite (tick_empty w Hr Hs) in Hh. discriminate Hh. }
    destruct (tick_running w head rest Hr Hs)
      as [(_ & Heq) | [(_ & _ & Heq) | (_ & _ & ctx & log & Heq)]];
      cbv zeta in Heq; rewrite Heq in Hh; clear Heq.
    + injection Hh as <-. unfold stale, stop_timer. js_simpl. turn_simpl.
      split; [|exact Hne].
      destruct (intervalId (vars w)) as [cur|]; [|exact Hin].
      apply in_in_remove; [|exact Hin]. intros Heq. apply Hne. now rewrite Heq.
    + injection Hh as <-. unfold stale. js_simpl. turn_simpl. split; assumption.
    + destruct (first_free (randoms (host w)) _) as [[cell rs']|]; [|discriminate Hh].
      injection Hh as <-. unfold stale. js_simpl. turn_simpl. split; assumption.
  - rewrite frame_spec in Hh. injection Hh as <-. split; assumption.
Qed.

Lemma play_keeps_stale (old : nat) (script : list Step) (w w' : World) :
  reachable w -> stale old w -> play script w = Some w' -> stale old w'.
Proof.
  revert w. induction script as [|s script IH]; intros w Hw Hst Hplay;
    cbn [play] in Hplay.
  - injection Hplay as <-. exact Hst.
  - destruct (step s w) as [w1|] eqn:Hstep; [|discriminate Hplay].
    apply (IH w1); [exact (step_reachable s w w1 Hw Hstep) | | exact Hplay].
    destruct (step_cases s w w1 Hw Hstep)
      as [(name & rs & fault & _ & ->) | (e & _ & _ & Hh)].
    + exact Hst.
    + exact (handler_keeps_stale old e w w1 (reachable_timed w Hw) Hst Hh).
Qed.

(** ** Strings *)

Lemma trimStart_blank (s : string) : blank s = true -> trimStart s = EmptyString.
Proof.
  induction s as [|c s IH]; [reflexivity|].
  cbn [blank trimStart]. intros H. apply andb_prop in H as [Hc Hs].
  rewrite Hc. exact (IH Hs).
Qed.

Lemma trimStart_not_blank (s : string) :
  blank s = false ->
  exists c t, trimStart s = String c t /\ is_space c = false.
Proof.
  induction s as [|c s IH]; [discriminate|].
  cbn [blank trimStart]. destruct (is_space c) eqn:Hc.
  - cbn [andb]. exact IH.
  - intros _. now exists c, s.
Qed.

Lemma trimEnd_keeps_head (c : ascii) (t : string) :
  is_space c = false -> exists t', trimEnd (String c t) = String c t'.
Proof.
  intros Hc. cbn [trimEnd]. rewrite Hc.
  destruct (trimEnd t) as [|a t0]; eauto.
Qed.

Lemma trimEnd_idempotent (s : string) : trimEnd (trimEnd s) = trimEnd s.
Proof.
  induction s as [|c s IH]; [reflexivity|].
  cbn [trimEnd]. destruct (trimEnd s) as [|a t0] eqn:Ht.
  - destruct (is_space c) eqn:Hc; [reflexivity|].
    cbn [trimEnd]. now rewrite Hc.
  - change (trimEnd (String c (String a t0)))
      with (match trimEnd (String a t0) with
            | EmptyString => if is_space c then EmptyString else String c EmptyString
            | String a' t' => String c (String a' t')
            end).
    now rewrite IH.
Qed.

Lemma trim_idempotent (s : string) : trim (trim s) = trim s.
Proof.
  unfold trim. destruct (blank s) eqn:Hb.
  - rewrite (trimStart_blank s Hb). reflexivity.
  - destruct (trimStart_not_blank s Hb) as (c & t & -> & Hc).
    destruct (trimEnd_keeps_head c t Hc) as [t' Ht'].
    rewrite Ht' at 1. cbn [trimStart]. rewrite Hc, <- Ht'.
    apply trimEnd_idempotent.
Qed.

(** ** The grid *)

Lemma steps_back_everywhere :
  forallb (fun c => forallb (fun d => cell_eqb (newHead (newHead c d) (opposite d)) c)
                      directions)
    grid_cells = true.
Proof. vm_compute. reflexivity. Qed.

Lemma full_circle_everywhere :
  forallb (fun c => cell_eqb (steps 40 (Vec 1 0) c) c &&
                    cell_eqb (steps 40 (Vec (-1) 0) c) c &&
                    cell_eqb (steps 30 (Vec 0 1) c) c &&
                    cell_eqb (steps 30 (Vec 0 (-1)) c) c)
    grid_cells = true.
Proof. vm_compute. reflexivity. Qed.

Lemma direction_not_opposite (d : Value) : is_direction d -> d <> opposite d.
Proof.
  intros [ -> | [ -> | [ -> | -> ] ] ]; cbn [opposite]; intros H; discriminate H.
Qed.

(** ** Runs without inherited keys *)

Lemma play_keeps_plain (script : list Step) (w w' : World) :
  reachable w ->
  well_formed (vars w) /\ moving (vars w) ->
  forallb ordinary script = true ->
  play script w = Some w' ->
  well_formed (vars w') /\ moving (vars w').
Proof.
  revert w. induction script as [|s script IH]; intros w Hw Hplain Hord Hplay;
    cbn [play] in Hplay.
  - injection Hplay as <-. exact Hplain.
  - cbn [forallb] in Hord. apply andb_prop in Hord as [Hs Hord].
    destruct (step s w) as [w1|] eqn:Hstep; [|discriminate Hplay].
    apply (IH w1); [exact (step_reachable s w w1 Hw Hstep) | | exact Hord | exact Hplay].
    destruct Hplain as [Hwf Hmov].
    destruct (step_cases s w w1 Hw Hstep)
      as [(name & rs & fault & _ & ->) | (e & -> & _ & Hh)].
    + split; assumption.
    + split.
      * apply (handler_keeps_well_formed e w w1 Hwf); [|exact Hh].
        intros e_key ->. cbn [ordinary] in Hs. now apply negb_true_iff in Hs.
      * exact (handler_keeps_moving e w w1 Hwf Hmov Hh).
Qed.

(** ** Frames *)

Lemma on_host_frames_id (w : World) : on_host (set_frames (frames (host w))) w = w.
Proof. destruct w as [g h]. destruct h. reflexivity. Qed.

Lemma frame_step (w : World) :
  step (Fire AnimationFrame) w =
  match frames (host w) with
  | O => None
  | S fr => Some (on_host (set_frames (if running (vars w) then S fr else fr)) w)
  end.
Proof.
  cbn [step enabled]. rewrite frame_spec.
  destruct w as [g h]. destruct h as [nv ss gc sb al tm nt fr rs af lg]. js_simpl.
  destruct fr as [|fr]; [reflexivity|]. cbn [Nat.eqb negb Nat.pred].
  destruct (running g); reflexivity.
Qed.

(** * Properties of the whole page *)

(** X6: while no key with an inherited name is pressed, the snake cannot
    turn back on itself.  In every state reached from the loaded page by such
    a run, what is pending is never the opposite of the direction; while the
    game runs the segments follow each other one step apart, the head lies
    one step in the direction from the second segment, and the head the next
    tick computes is not the second segment. *)
Theorem snake_never_steps_onto_its_neck (h : Host) (script : list Step) (w : World)
    (head neck : Cell) (rest : list Cell) :
  timers h = [] ->
  frames h = O ->
  forallb ordinary script = true ->
  play script (mkWorld initial_vars h) = Some w ->
  running (vars w) = true ->
  snake (vars w) = head :: neck :: rest ->
  (forall d, pendingDirection (vars w) = Some d -> d <> opposite (direction (vars w))) /\
  chained (snake (vars w)) /\
  head = newHead neck (direction (vars w)) /\
  newHead head (heading (vars w)) <> neck.
Proof.
  intros Ht Hf Hord Hplay Hr Hs.
  assert (Hload : reachable (mkWorld initial_vars h)) by now apply reach_load.
  destruct (play_keeps_plain script (mkWorld initial_vars h) w Hload) as [Hwf Hmov];
    [|exact Hord | exact Hplay|].
  { split.
    - split; [right; right; right; reflexivity|]. split; discriminate.
    - split; discriminate. }
  destruct Hmov as (Hpend & Hgo).
  destruct (Hgo Hr) as (_ & Hch & Hhead).
  pose proof (heading_is_direction (vars w) Hwf) as Hheading.
  destruct Hwf as (Hdir & _ & Hrun).
  destruct (Hrun Hr) as (_ & _ & _ & Hgrid & _).
  split; [exact Hpend|]. split; [exact Hch|].
  specialize (Hhead head neck rest Hs). split; [exact Hhead|].
  rewrite Hhead. apply no_backstep; [| exact Hdir | exact Hheading |].
  - rewrite Hs in Hgrid. inversion Hgrid as [|? ? _ Htl]. now inversion Htl.
  - unfold heading. destruct (pendingDirection (vars w)) as [d|] eqn:Hp.
    + now apply Hpend.
    + now apply direction_not_opposite.
Qed.

Lemma snake_never_steps_onto_its_neck_witness :
  chained (snake (vars squared)) /\
  newHead (xy 20 16) (heading (vars squared)) <> xy 21 16.
Proof.
  destruct (snake_never_steps_onto_its_neck (host loaded) square_game squared
              (xy 20 16) (xy 21 16) [xy 21 15; xy 20 15])
    as (_ & Hch & _ & Hneck).
  - reflexivity.
  - reflexivity.
  - reflexivity.
  - vm_compute. reflexivity.
  - reflexivity.
  - reflexivity.
  - split; assumption.
Defined.

(** X7: key presses between two ticks change the pending direction and
    nothing else; each is judged against the direction of the last tick by
    the test of [handleKeyDown], and what the map holds for the last one that
    passes, a unit vector or an inherited member, is what stays pending. *)
Theorem key_presses_leave_the_last_accepted (keys : list string) (w : World) :
  play (key_presses keys) w =
  Some (on_vars (set_pendingDirection
                   (fold_left (steer (direction (vars w))) keys
                      (pendingDirection (vars w)))) w).
Proof.
  revert w. induction keys as [|e_key keys IH]; intros w.
  - cbn [key_presses List.map play fold_left].
    destruct w as [g h]. destruct g. reflexivity.
  - cbn [key_presses List.map play step enabled handler fold_left].
    rewrite handleKeyDown_steers. fold (key_presses keys). rewrite IH.
    reflexivity.
Qed.



(** X9: whatever a tick does, it leaves the player's name, the timer id, the
    name field, the counter of timer ids and the frame requests as they are,
    and starts no timer.  A tick of a running game takes up the pending
    direction on every path.  A game that runs after the tick ran before it,
    and the tick has shown no alert, stopped no timer and left both screens as
    they were. *)
Theorem tick_leaves_the_rest_alone (w : World) :
  let w' := outcome_world (tick w) in
  playerName (vars w') = playerName (vars w) /\
  intervalId (vars w') = intervalId (vars w) /\
  nameInput_value (host w') = nameInput_value (host w) /\
  next_timer (host w') = next_timer (host w) /\
  frames (host w') = frames (host w) /\
  (forall i, In i (timers (host w')) -> In i (timers (host w))) /\
  (running (vars w) = true ->
   direction (vars w') = heading (vars w) /\ pendingDirection (vars w') = None) /\
  (running (vars w') = true ->
   running (vars w) = true /\
   alerts (host w') = alerts (host w) /\
   timers (host w') = timers (host w) /\
   startScreen_hidden (host w') = startScreen_hidden (host w) /\
   gameContainer_hidden (host w') = gameContainer_hidden (host w)).
Proof.
  cbv zeta.
  destruct (running (vars w)) eqn:Hr.
  2: { rewrite (tick_idle w Hr). cbn [outcome_world]. rewrite Hr.
       repeat split; try reflexivity; try discriminate; auto. }
  destruct (snake (vars w)) as [|head rest] eqn:Hs.
  { rewrite (tick_empty w Hr Hs). cbn [outcome_world]. js_simpl. turn_simpl.
    repeat split; try reflexivity; auto. }
  destruct (tick_running w head rest Hr Hs)
    as [(_ & Heq) | [(_ & _ & Heq) | (_ & _ & ctx & log & Heq)]];
    cbv zeta in Heq; rewrite Heq; clear Heq.
  - cbn [outcome_world]. unfold stop_timer. js_simpl. turn_simpl.
    repeat split; try reflexivity; try discriminate.
    destruct (intervalId (vars w)) as [id|]; [|auto].
    intros i Hi. now apply (remove_subset id).
  - cbn [outcome_world]. js_simpl. turn_simpl.
    repeat split; try reflexivity; auto.
  - destruct (first_free (randoms (host w)) _) as [[cell rs']|];
      cbn [outcome_world]; js_simpl; turn_simpl;
      repeat split; try reflexivity; auto.
Qed.



(** X11: while a game runs, [intervalId] holds a timer that is running, so
    the next tick and the next frame can come; after the game is over the
    timer [intervalId] holds no longer runs.  Timer ids are never used
    twice. *)
Theorem running_game_keeps_its_timer (w : World) :
  reachable w ->
  (running (vars w) = true ->
   (exists id, intervalId (vars w) = Some id /\ In id (timers (host w))) /\
   enabled TimerFires w = true /\ enabled AnimationFrame w = true) /\
  (running (vars w) = false ->
   forall id, intervalId (vars w) = Some id -> ~ In id (timers (host w))) /\
  Forall (fun i => (i < next_timer (host w))%nat) (timers (host w)).
Proof.
  intros Hw. destruct (reachable_timed w Hw) as (Hall & _ & Hon & Hoff).
  split; [|split; [exact Hoff | exact Hall]].
  intros Hr. destruct (Hon Hr) as ((id & Hcur & Hin) & Hfr).
  split; [now exists id|]. cbn [enabled]. split.
  - destruct (timers (host w)); [contradiction Hin | reflexivity].
  - destruct (frames (host w)); [lia | reflexivity].
Qed.

Lemma running_game_keeps_its_timer_witness :
  (exists id, intervalId (vars crowded) = Some id /\ In id (timers (host crowded))) /\
  enabled TimerFires crowded = true.
Proof.
  destruct (running_game_keeps_its_timer crowded crowded_reachable) as (Hon & _).
  destruct (Hon eq_refl) as (Hid & Hen & _).
  split; assumption.
Defined.

(** X12: [startGame] stops no timer.  When the start button is clicked while
    a game runs, the timer of that game runs on under an id no variable holds,
    and nothing that happens afterwards stops it. *)
Theorem replaced_timer_is_never_stopped (w w1 w2 : World) (script : list Step) :
  reachable w ->
  running (vars w) = true ->
  handler StartClick w = Returns tt w1 ->
  play script w1 = Some w2 ->
  exists old,
    intervalId (vars w) = Some old /\
    In old (timers (host w2)) /\
    intervalId (vars w2) <> Some old.
Proof.
  intros Hw Hr Hh Hplay.
  pose proof (reachable_timed w Hw) as Htimed.
  destruct Htimed as (Hall & Hlt & Hon & _).
  destruct (Hon Hr) as ((old & Hcur & Hin) & _).
  exists old. split; [exact Hcur|].
  apply (play_keeps_stale old script w1 w2); [| | exact Hplay].
  - now apply (reach_return w StartClick w1).
  - rewrite start_click_spec in Hh. cbv zeta in Hh.
    destruct (first_free (randoms (host w)) start_snake) as [[cell rs']|];
      [|discriminate Hh].
    injection Hh as <-. unfold stale. js_simpl. split; [now right|].
    intros Heq. injection Heq as Heq. specialize (Hlt old Hcur). lia.
Qed.

Lemma replaced_timer_is_never_stopped_witness :
  exists old,
    intervalId (vars after_start) = Some old /\
    In old (timers (host (on_host (set_randoms []) (on_host (set_frames 2%nat)
              (on_host (set_next_timer 2%nat) (on_host (set_timers [1%nat; 0%nat])
                 (on_vars (set_intervalId (Some 1%nat)) after_start))))))).
Proof.
  destruct (replaced_timer_is_never_stopped
              (on_host (supply "  Ada "%string [random_zero; random_zero] (fun _ => false))
                 after_start)
              (on_host (set_randoms []) (on_host (set_frames 2%nat)
                 (on_host (set_next_timer 2%nat) (on_host (set_timers [1%nat; 0%nat])
                    (on_vars (set_intervalId (Some 1%nat)) after_start)))))
              (on_host (set_randoms []) (on_host (set_frames 2%nat)
                 (on_host (set_next_timer 2%nat) (on_host (set_timers [1%nat; 0%nat])
                    (on_vars (set_intervalId (Some 1%nat)) after_start)))))
              [])
    as (old & Hcur & Hin & _).
  - apply reach_supply. exact after_start_reachable.
  - reflexivity.
  - vm_compute. reflexivity.
  - reflexivity.
  - exists old. split; assumption.
Defined.

(** X13: when the start button is clicked only while no game runs, no timer
    runs but the one [intervalId] holds. *)
Theorem one_timer_at_a_time (e : Event) (w w' : World) :
  reachable w ->
  single_timer w ->
  (e = StartClick -> running (vars w) = false) ->
  handler e w = Returns tt w' ->
  single_timer w'.
Proof.
  intros Hw Hsingle Hclick Hh.
  destruct (reachable_timed w Hw) as (_ & _ & _ & Hoff).
  destruct e as [|e_key| |].
  - specialize (Hoff (Hclick eq_refl)).
    rewrite start_click_spec in Hh. cbv zeta in Hh.
    destruct (first_free (randoms (host w)) start_snake) as [[cell rs']|];
      [|discriminate Hh].
    injection Hh as <-. unfold single_timer. js_simpl.
    intros id [<- | Hin]; [reflexivity|].
    exfalso. exact (Hoff id (Hsingle id Hin) Hin).
  - cbn [handler] in Hh. rewrite handleKeyDown_steers in Hh. injection Hh as <-.
    exact Hsingle.
  - cbn [handler] in Hh.
    destruct (running (vars w)) eqn:Hr.
    2: { rewrite (tick_idle w Hr) in Hh. injection Hh as <-. exact Hsingle. }
    destruct (snake (vars w)) as [|head rest] eqn:Hs.
    { rewrite (tick_empty w Hr Hs) in Hh. discriminate Hh. }
    destruct (tick_running w head rest Hr Hs)
      as [(_ & Heq) | [(_ & _ & Heq) | (_ & _ & ctx & log & Heq)]];
      cbv zeta in Heq; rewrite Heq in Hh; clear Heq.
    + injection Hh as <-. unfold single_timer, stop_timer. js_simpl. turn_simpl.
      intros id Hin. apply Hsingle.
      destruct (intervalId (vars w)) as [cur|]; [|exact Hin].
      now apply (remove_subset cur).
    + injection Hh as <-. unfold single_timer. js_simpl. turn_simpl. exact Hsingle.
    + destruct (first_free (randoms (host w)) _) as [[cell rs']|]; [|discriminate Hh].
      injection Hh as <-. unfold single_timer. js_simpl. turn_simpl. exact Hsingle.
  - rewrite frame_spec in Hh. injection Hh as <-. exact Hsingle.
Qed.

Lemma one_timer_at_a_time_witness : single_timer after_start.
Proof.
  apply (one_timer_at_a_time StartClick
           (fresh_page [random_half; random_half; random_zero; random_zero])
           after_start).
  - unfold fresh_page. apply reach_load; reflexivity.
  - intros id [].
  - reflexivity.
  - vm_compute. reflexivity.
Defined.

(** X14: a new game keeps nothing of the one before it but the audio context:
    started from the same page with any other values of the script's
    variables, [startGame] ends in the same state. *)
Theorem startGame_forgets_the_previous_game (g1 g2 : Vars) (h : Host) (w1 : World) :
  startGame (mkWorld g1 h) = Returns tt w1 ->
  startGame (mkWorld g2 h) = Returns tt (on_vars (set_audioCtx (audioCtx g2)) w1).
Proof.
  rewrite !startGame_spec. cbv zeta. js_simpl.
  destruct (first_free (randoms h) start_snake) as [[cell rs']|]; [|discriminate].
  intros H. injection H as <-. reflexivity.
Qed.

Lemma startGame_forgets_the_previous_game_witness :
  startGame
    (mkWorld (vars crowded)
       (set_gameContainer_hidden false
          (set_startScreen_hidden true
             (host (fresh_page [random_half; random_half; random_zero; random_zero]))))) =
  Returns tt after_start.
Proof.
  apply (startGame_forgets_the_previous_game initial_vars (vars crowded)
           (set_gameContainer_hidden false
              (set_startScreen_hidden true
                 (host (fresh_page [random_half; random_half; random_zero; random_zero]))))
           after_start).
  vm_compute. reflexivity.
Defined.

(** X15: the name [startGame] takes from the name field is never empty and
    has no white space at either end; it is the default name when the field
    holds nothing but white space, and the trimmed text of the field
    otherwise. *)
Theorem entered_name_is_trimmed_and_not_empty (typed : string) :
  entered_name typed <> EmptyString /\
  trim (entered_name typed) = entered_name typed /\
  (blank typed = true -> entered_name typed = "Spieler"%string) /\
  (blank typed = false -> entered_name typed = trim typed).
Proof.
  split; [apply entered_name_not_empty|].
  assert (Hdefault : blank typed = true -> entered_name typed = "Spieler"%string).
  { intros Hb. unfold entered_name, trim. now rewrite (trimStart_blank typed Hb). }
  assert (Htrim : blank typed = false -> entered_name typed = trim typed).
  { intros Hb. unfold entered_name, trim.
    destruct (trimStart_not_blank typed Hb) as (c & t & -> & Hc).
    destruct (trimEnd_keeps_head c t Hc) as [t' ->]. reflexivity. }
  split; [|split; assumption].
  destruct (blank typed) eqn:Hb.
  - rewrite (Hdefault eq_refl). reflexivity.
  - rewrite (Htrim eq_refl). apply trim_idempotent.
Qed.

(** X16: on the grid, the step [tick] computes is undone by the step in the
    opposite direction, and as many steps as the grid is wide, or high, along
    one axis lead back to the cell they started from. *)
Theorem steps_wrap_around_the_grid (c : Cell) (d : Value) :
  in_grid c ->
  is_direction d ->
  in_grid (newHead c d) /\
  newHead (newHead c d) (opposite d) = c /\
  steps (Z.to_nat BOARD_WIDTH) (Vec 1 0) c = c /\
  steps (Z.to_nat BOARD_WIDTH) (Vec (-1) 0) c = c /\
  steps (Z.to_nat BOARD_HEIGHT) (Vec 0 1) c = c /\
  steps (Z.to_nat BOARD_HEIGHT) (Vec 0 (-1)) c = c.
Proof.
  intros Hc Hd. split; [now apply newHead_in_grid|].
  pose proof steps_back_everywhere as Hback.
  pose proof full_circle_everywhere as Hcircle.
  rewrite forallb_forall in Hback, Hcircle.
  specialize (Hback c (grid_cells_cover c Hc)).
  specialize (Hcircle c (grid_cells_cover c Hc)).
  rewrite forallb_forall in Hback.
  specialize (Hback d (is_direction_In d Hd)).
  apply cell_eqb_eq in Hback as [Hback _].
  apply andb_prop in Hcircle as [Hcircle H4].
  apply andb_prop in Hcircle as [Hcircle H3].
  apply andb_prop in Hcircle as [H1 H2].
  apply cell_eqb_eq in H1 as [H1 _], H2 as [H2 _], H3 as [H3 _], H4 as [H4 _].
  change (Z.to_nat BOARD_WIDTH) with 40%nat.
  change (Z.to_nat BOARD_HEIGHT) with 30%nat.
  repeat split; assumption.
Qed.

Lemma steps_wrap_around_the_grid_witness :
  newHead (newHead (xy 39 0) (Vec 1 0)) (Vec (-1) 0) = xy 39 0 /\
  steps 40 (Vec 1 0) (xy 39 0) = xy 39 0.
Proof.
  destruct (steps_wrap_around_the_grid (xy 39 0) (Vec 1 0)) as (_ & Hback & Hright & _).
  - apply in_grid_xy. unfold BOARD_WIDTH, BOARD_HEIGHT. lia.
  - right. right. right. reflexivity.
  - split; [exact Hback | exact Hright].
Defined.

(** X17: [playBeep] makes its calls into the audio API in their order up to
    the first that throws, and returns; the audio context is created only when
    there is none yet, and is kept when its construction succeeds.  Nothing
    else changes. *)
Theorem playBeep_calls_until_the_first_fault (w : World) :
  playBeep w =
  Returns tt
    (mkWorld
       (set_audioCtx (audioCtx (vars w) || negb (audio_fault (host w) NewAudioContext))
          (vars w))
       (set_audio_log
          (rev (until_fault (audio_fault (host w)) (playBeep_calls (audioCtx (vars w))))
           ++ audio_log (host w))
          (host w))).
Proof.
  destruct w as [g h]. destruct g as [nm sn dir pend fd run sc iid actx].
  destruct h as [nv ss gc sb al tm nt fr rs af lg].
  unfold playBeep, try_catch, bind, audio, read, assign, ret, playBeep_calls. js_simpl.
  destruct actx; js_simpl; cbn [app until_fault orb];
    repeat match goal with
           | |- context [af ?c] =>
               let H := fresh "Hf" in
               destruct (af c) eqn:H; js_simpl; cbn [until_fault rev app negb orb]
           end;
    reflexivity.
Qed.

(** X18: in every state the page can reach, the score of a running game lies
    between 3 and the number of cells of the grid. *)
Theorem score_stays_within_the_grid (w : World) :
  reachable w ->
  running (vars w) = true ->
  3 <= score (vars w) <= BOARD_WIDTH * BOARD_HEIGHT.
Proof.
  intros Hw Hr.
  destruct (reachable_sound w Hw) as (_ & _ & Hrun).
  destruct (Hrun Hr) as (Hsc & Hlen & _).
  rewrite Hsc. unfold BOARD_WIDTH, BOARD_HEIGHT. lia.
Qed.

Lemma score_stays_within_the_grid_witness :
  3 <= score (vars crowded) <= BOARD_WIDTH * BOARD_HEIGHT.
Proof.
  apply (score_stays_within_the_grid crowded).
  - exact crowded_reachable.
  - reflexivity.
Defined.

(** X19: the render loop lives and ends with the game.  While the game runs
    and a frame is requested, every frame callback requests the next one, so
    any number of frames can follow; once the game is over each callback uses
    up one request and makes none, so no more callbacks come than there were
    requests. *)
Theorem render_loop_ends_with_the_game (n : nat) (w : World) :
  (running (vars w) = true -> (1 <= frames (host w))%nat ->
   play (repeat (Fire AnimationFrame) n) w = Some w) /\
  (running (vars w) = false -> (n <= frames (host w))%nat ->
   play (repeat (Fire AnimationFrame) n) w =
   Some (on_host (set_frames (frames (host w) - n)) w)) /\
  (running (vars w) = false -> (frames (host w) < n)%nat ->
   play (repeat (Fire AnimationFrame) n) w = None).
Proof.
  revert w. induction n as [|n IH]; intros w.
  { cbn [repeat play]. split; [reflexivity|]. split; [|lia].
    intros _ _. rewrite Nat.sub_0_r. now rewrite on_host_frames_id. }
  cbn [repeat play]. rewrite frame_step.
  destruct (frames (host w)) as [|fr] eqn:Hf.
  { split; [lia|]. split; [lia | reflexivity]. }
  split; [|split]; intros Hr Hn; rewrite Hr.
  - rewrite <- Hf, on_host_frames_id. apply (IH w); [exact Hr | lia].
  - destruct (IH (on_host (set_frames fr) w)) as (_ & Hdown & _).
    rewrite Hdown; [| exact Hr | js_simpl; lia].
    destruct w as [g h]. destruct h. reflexivity.
  - destruct (IH (on_host (set_frames fr) w)) as (_ & _ & Hout).
    apply Hout; [exact Hr | js_simpl; lia].
Qed.

(** X20: while no key with an inherited name is pressed, the state satisfies
    the data model: in every state reached from the loaded page by such a
    run, both directions are unit vectors, and while the game runs the score
    is the length of the snake, which is at least 3, the snake's cells are
    distinct cells of the grid, and the food is a cell of the grid off the
    snake. *)
Theorem data_model_holds_without_inherited_keys (h : Host) (script : list Step)
    (w : World) :
  timers h = [] ->
  frames h = O ->
  forallb ordinary script = true ->
  play script (mkWorld initial_vars h) = Some w ->
  well_formed (vars w).
Proof.
  intros Ht Hf Hord Hplay.
  assert (Hload : reachable (mkWorld initial_vars h)) by now apply reach_load.
  apply (play_keeps_plain script (mkWorld initial_vars h) w Hload);
    [|exact Hord | exact Hplay].
  split.
  - split; [right; right; right; reflexivity|]. split; discriminate.
  - split; discriminate.
Qed.

Lemma data_model_holds_without_inherited_keys_witness : well_formed (vars crowded).
Proof.
  apply (data_model_holds_without_inherited_keys (host loaded) full_game crowded).
  - reflexivity.
  - reflexivity.
  - vm_compute. reflexivity.
  - exact full_game_plays.
Defined.

(** X21: a key named [constructor] or [__proto__], in any case, is taken up
    like a direction key.  The press stores the inherited member as the
    pending direction whatever the direction is, and the next tick of a
    running game makes it the direction and puts [[NaN, NaN]] in front of the
    snake as a plain move: the game runs on, even where a step in any
    direction would have ended it, and score and food stay as they were. *)
Theorem inherited_key_derails_the_snake (e_key : string) (m : Inherited) (w : World)
    (head : Cell) (rest : list Cell) :
  map (toLowerCase e_key) = Some (Member m) ->
  running (vars w) = true ->
  snake (vars w) = head :: rest ->
  exists w1 w2,
    handleKeyDown e_key w = Returns tt w1 /\
    pendingDirection (vars w1) = Some (Member m) /\
    tick w1 = Returns tt w2 /\
    direction (vars w2) = Member m /\
    snake (vars w2) = xy NaN NaN :: removelast (head :: rest) /\
    running (vars w2) = true /\
    score (vars w2) = score (vars w) /\
    food (vars w2) = food (vars w).
Proof.
  intros Hmap Hr Hs.
  set (w1 := on_vars (set_pendingDirection (Some (Member m))) w).
  assert (Hk : handleKeyDown e_key w = Returns tt w1).
  { rewrite handleKeyDown_steers. unfold steer. rewrite Hmap.
    destruct (direction (vars w)) as [dx dy|m']; reflexivity. }
  assert (Hc : newHead head (heading (vars w1)) = xy NaN NaN)
    by apply newHead_member.
  pose proof (tick_move w1 head rest Hr Hs) as Hmove. cbv zeta in Hmove.
  rewrite Hc in Hmove.
  specialize (Hmove (lost_off (head :: rest))).
  assert (Hon : on_food (food (vars w1)) (xy NaN NaN) = false).
  { destruct (on_food (food (vars w1)) (xy NaN NaN)) eqn:Hon; [|reflexivity].
    apply on_food_spec in Hon as [_ Hint]. now apply lost_not_integral in Hint. }
  specialize (Hmove Hon).
  exists w1. eexists. split; [exact Hk|]. split; [reflexivity|].
  split; [exact Hmove|]. js_simpl. repeat split. exact Hr.
Qed.

Lemma inherited_key_derails_the_snake_witness :
  exists w1,
    handleKeyDown "Constructor" squared = Returns tt w1 /\
    tick w1 = Returns tt derailed.
Proof.
  destruct (inherited_key_derails_the_snake "Constructor" Object_constructor squared
              (xy 20 16) [xy 21 16; xy 21 15; xy 20 15])
    as (w1 & w2 & Hk & _ & Ht & _).
  - reflexivity.
  - reflexivity.
  - reflexivity.
  - exists w1. split; [exact Hk|].
    vm_compute in Hk. injection Hk as <-. vm_compute. reflexivity.
Defined.

(** X22: once the head is [[NaN, NaN]] the game cannot end.  Whatever keys are
    pressed and however often the timer fires, until the start button is
    clicked the game runs, the head is [[NaN, NaN]], and score, food, the
    length of the snake and the alerts shown stay as they are. *)
Theorem lost_snake_never_dies (script : list Step) (w w' : World) :
  running (vars w) = true ->
  lost (snake (vars w)) ->
  forallb no_restart script = true ->
  play script w = Some w' ->
  running (vars w') = true /\
  lost (snake (vars w')) /\
  score (vars w') = score (vars w) /\
  food (vars w') = food (vars w) /\
  List.length (snake (vars w')) = List.length (snake (vars w)) /\
  alerts (host w') = alerts (host w).
Proof.
  revert w. induction script as [|s script IH]; intros w Hr Hlost Hno Hplay;
    cbn [play] in Hplay.
  { injection Hplay as <-. repeat split; assumption. }
  cbn [forallb] in Hno. apply andb_prop in Hno as [Hs Hno].
  destruct (step s w) as [w1|] eqn:Hstep; [|discriminate Hplay].
  assert (H1 : running (vars w1) = true /\ lost (snake (vars w1)) /\
               score (vars w1) = score (vars w) /\ food (vars w1) = food (vars w) /\
               List.length (snake (vars w1)) = List.length (snake (vars w)) /\
               alerts (host w1) = alerts (host w)).
  { destruct s as [name rs fault|[|e_key| |]]; cbn [step] in Hstep.
    - injection Hstep as <-. repeat split; assumption.
    - discriminate Hs.
    - cbn [enabled handler] in Hstep. rewrite handleKeyDown_steers in Hstep.
      injection Hstep as <-. repeat split; assumption.
    - destruct (enabled TimerFires w); [|discriminate Hstep].
      cbn [handler] in Hstep. destruct Hlost as [rest Hsn].
      pose proof (tick_move w (xy NaN NaN) rest Hr Hsn) as Hmove. cbv zeta in Hmove.
      rewrite newHead_lost in Hmove.
      specialize (Hmove (lost_off (xy NaN NaN :: rest))).
      assert (Hon : on_food (food (vars w)) (xy NaN NaN) = false).
      { destruct (on_food (food (vars w)) (xy NaN NaN)) eqn:Hon; [|reflexivity].
        apply on_food_spec in Hon as [_ Hint]. now apply lost_not_integral in Hint. }
      rewrite (Hmove Hon) in Hstep. injection Hstep as <-.
      pose proof (removelast_length (xy NaN NaN) rest) as Hlen.
      js_simpl. turn_simpl. rewrite Hsn.
      split; [exact Hr|]. split; [now exists (removelast (xy NaN NaN :: rest))|].
      split; [reflexivity|]. split; [reflexivity|]. split; [|reflexivity].
      exact (f_equal S Hlen).
    - destruct (enabled AnimationFrame w); [|discriminate Hstep].
      rewrite frame_spec in Hstep. injection Hstep as <-. repeat split; assumption. }
  destruct H1 as (Hr1 & Hlost1 & Hsc1 & Hf1 & Hlen1 & Hal1).
  destruct (IH w1 Hr1 Hlost1 Hno Hplay) as (Hr' & Hlost' & Hsc' & Hf' & Hlen' & Hal').
  repeat split; try assumption; congruence.
Qed.

Lemma lost_snake_never_dies_witness :
  play [Fire TimerFires; Fire (KeyDown "d"); Fire TimerFires; Fire TimerFires] derailed =
  Some (on_vars (set_direction (Vec 1 0))
          (on_vars (set_snake [xy NaN NaN; xy NaN NaN; xy NaN NaN; xy NaN NaN])
             derailed)) /\
  running (vars derailed) = true /\
  score (vars (on_vars (set_direction (Vec 1 0))
                 (on_vars (set_snake [xy NaN NaN; xy NaN NaN; xy NaN NaN; xy NaN NaN])
                    derailed))) = 4.
Proof.
  assert (Hplay : play [Fire TimerFires; Fire (KeyDown "d"); Fire TimerFires;
                        Fire TimerFires] derailed =
                  Some (on_vars (set_direction (Vec 1 0))
                          (on_vars (set_snake [xy NaN NaN; xy NaN NaN; xy NaN NaN;
                                               xy NaN NaN])
                             derailed)))
    by (vm_compute; reflexivity).
  destruct (lost_snake_never_dies
              [Fire TimerFires; Fire (KeyDown "d"); Fire TimerFires; Fire TimerFires]
              derailed _ eq_refl
              (ex_intro _ [xy 20 16; xy 21 16; xy 21 15] eq_refl) eq_refl Hplay)
    as (_ & _ & Hsc & _).
  split; [exact Hplay|]. split; [reflexivity | exact Hsc].
Defined.
